(** * SimpleCmd: command-safety classification and approval-gated execution

    A shallow embedding of [config.py], [command_executor.py], the
    agent of [ai_agent.py] and the command loop of [main.py], followed
    by the properties of the pipeline.

    Conventions.
    - A Python [str] is a list of characters.  Characters are the 256
      code points of Latin-1, which is what [ascii] holds; [str.lower],
      [str.isspace] and the regex classes are written out for that range.
    - [console.print] renders rich markup and raises [MarkupError] on a
      text it cannot render.  A print whose text is fixed in the source
      is valid markup and is left out; a print whose text has a part that
      the environment controls is modelled, and whether rich renders it
      is asked of the console, which is an argument.  Of what is printed
      only the panels and the history listing are recorded as events.
    - The user, the subprocess and the translation service are the
      environment: their answers are arguments of the operations. *)

From Stdlib Require Import Ascii String DecimalString.
From stdpp Require Import gmap list strings.

Set Default Proof Using "Type".
Local Open Scope list_scope.

(** ** Python strings *)

Module PyStr.

Definition str : Type := list ascii.

(** String literals of the source are written [L "..."]. *)
Definition L (s : string) : str := list_ascii_of_string s.

Definition code (c : ascii) : nat := nat_of_ascii c.

Definition between (lo hi n : nat) : bool := (lo <=? n)%nat && (n <=? hi)%nat.

(** [str.isspace] on one character: TAB..CR, FS..US, space, NEL, NBSP. *)
Definition isspace (c : ascii) : bool :=
  between 9 13 (code c) || between 28 32 (code c)
  || (code c =? 133)%nat || (code c =? 160)%nat.

(** [str.lower] on one character: A..Z and the Latin-1 capitals
    (0xC0..0xDE without the multiplication sign 0xD7) move up by 32. *)
Definition lower_char (c : ascii) : ascii :=
  if between 65 90 (code c)
     || (between 192 222 (code c) && negb (code c =? 215)%nat)
  then ascii_of_nat (code c + 32)
  else c.

Definition lower (s : str) : str := map lower_char s.

Fixpoint lstrip (s : str) : str :=
  match s with
  | [] => []
  | c :: s' => if isspace c then lstrip s' else s
  end.

Definition rstrip (s : str) : str := rev (lstrip (rev s)).

(** [s.strip()] *)
Definition strip (s : str) : str := rstrip (lstrip s).

(** [s.startswith(p)] *)
Fixpoint startswith (s p : str) {struct p} : bool :=
  match p, s with
  | [], _ => true
  | _ :: _, [] => false
  | a :: p', b :: s' => Ascii.eqb a b && startswith s' p'
  end.

(** [k in s] *)
Fixpoint contains (s k : str) : bool :=
  startswith s k ||
  match s with
  | [] => false
  | _ :: s' => contains s' k
  end.

(** [s.replace(old, new)]: the occurrences of [old] are found left to
    right and do not overlap.  [skip] counts the characters of an
    occurrence that are still to be dropped. *)
Fixpoint replace_from (old new : str) (skip : nat) (s : str) : str :=
  match s with
  | [] => []
  | c :: s' =>
      match skip with
      | S k => replace_from old new k s'
      | O =>
          if startswith s old
          then new ++ replace_from old new (length old - 1) s'
          else c :: replace_from old new 0 s'
      end
  end.

Definition replace (s old new : str) : str :=
  match old with
  | [] => new ++ flat_map (fun c => c :: new) s
  | _ :: _ => replace_from old new 0 s
  end.

(** The propositional reading of "[k] is a substring of [s]". *)
Definition occurs_in (k s : str) : Prop :=
  ∃ pre post, s = pre ++ k ++ post.

End PyStr.
Export PyStr.

(** ** Regular expressions of the [re] module

    Only the constructs that [DANGEROUS_PATTERNS] uses, closed under what
    the derivative needs ([Void], [Eps], [Alt]). *)

Module Re.

Inductive regex : Type :=
| Void
| Eps
| Chr (c : ascii)          (* a literal character *)
| Space                    (* \s *)
| Dot                      (* .  (no DOTALL: anything but a newline) *)
| Cat (r1 r2 : regex)
| Alt (r1 r2 : regex)
| Star (r : regex).        (* r* *)

(** r+ *)
Definition Plus (r : regex) : regex := Cat r (Star r).

(** A run of literal characters. *)
Fixpoint lits (s : str) : regex :=
  match s with
  | [] => Eps
  | [c] => Chr c
  | c :: s' => Cat (Chr c) (lits s')
  end.

Definition newline : ascii := ascii_of_nat 10.

(** The language of a pattern. *)
Inductive matches : regex → str → Prop :=
| M_eps : matches Eps []
| M_chr c : matches (Chr c) [c]
| M_space c : isspace c = true → matches Space [c]
| M_dot c : c ≠ newline → matches Dot [c]
| M_cat r1 r2 s1 s2 :
    matches r1 s1 → matches r2 s2 → matches (Cat r1 r2) (s1 ++ s2)
| M_alt_l r1 r2 s : matches r1 s → matches (Alt r1 r2) s
| M_alt_r r1 r2 s : matches r2 s → matches (Alt r1 r2) s
| M_star_nil r : matches (Star r) []
| M_star_app r s1 s2 :
    matches r s1 → matches (Star r) s2 → matches (Star r) (s1 ++ s2).

(** What [re.search] decides: some substring is in the language. *)
Definition found (r : regex) (s : str) : Prop :=
  ∃ pre m post, s = pre ++ m ++ post ∧ matches r m.

Fixpoint nullable (r : regex) : bool :=
  match r with
  | Void => false
  | Eps => true
  | Chr _ | Space | Dot => false
  | Cat r1 r2 => nullable r1 && nullable r2
  | Alt r1 r2 => nullable r1 || nullable r2
  | Star _ => true
  end.

Fixpoint deriv (a : ascii) (r : regex) : regex :=
  match r with
  | Void | Eps => Void
  | Chr c => if Ascii.eqb a c then Eps else Void
  | Space => if isspace a then Eps else Void
  | Dot => if Ascii.eqb a newline then Void else Eps
  | Cat r1 r2 =>
      if nullable r1
      then Alt (Cat (deriv a r1) r2) (deriv a r2)
      else Cat (deriv a r1) r2
  | Alt r1 r2 => Alt (deriv a r1) (deriv a r2)
  | Star r1 => Cat (deriv a r1) (Star r1)
  end.

(** [re.match(r, s)] as a truth value: a prefix of [s] is in the language. *)
Fixpoint re_match (r : regex) (s : str) : bool :=
  nullable r ||
  match s with
  | [] => false
  | c :: s' => re_match (deriv c r) s'
  end.

(** [re.search(r, s)] as a truth value: [re_match] at some position. *)
Fixpoint re_search (r : regex) (s : str) : bool :=
  re_match r s ||
  match s with
  | [] => false
  | _ :: s' => re_search r s'
  end.

End Re.
Export Re.

(** ** config.py *)

Module Config.

(** A Python set; the classifier only asks whether some member occurs,
    so the iteration order is immaterial. *)
Definition SENSITIVE_COMMAND_KEYWORDS : list str :=
  [ L "rm"; L "delete"; L "remove";
    L "mv"; L "move";
    L "cp"; L "copy";
    L "chmod"; L "chown";
    L "sudo"; L "su";
    L "dd";
    L "format"; L "mkfs";
    L "shutdown"; L "reboot"; L "halt";
    L "kill"; L "killall";
    L "curl"; L "wget";
    L "git push --force";
    L "drop"; L "truncate";
    L ">"; L ">>";
    L "uninstall"; L "purge" ].

Definition DANGEROUS_PATTERNS : list regex :=
  [ (* rm\s+-rf  *) Cat (lits (L "rm")) (Cat (Plus Space) (lits (L "-rf")));
    (* rm\s+.*\* *) Cat (lits (L "rm")) (Cat (Plus Space) (Cat (Star Dot) (Chr "*")));
    (* >\s+/     *) Cat (Chr ">") (Cat (Plus Space) (Chr "/"));
    (* sudo\s+rm *) Cat (lits (L "sudo")) (Cat (Plus Space) (lits (L "rm"))) ].

Definition COMMAND_TIMEOUT : nat := 30.

End Config.
Export Config.

(** ** command_executor.py: the classifier *)

(** [CommandExecutor.is_sensitive_command] *)
Definition is_sensitive_command (command : str) : bool :=
  let command_lower := strip (lower command) in
  existsb (fun keyword => contains command_lower keyword) SENSITIVE_COMMAND_KEYWORDS
  || existsb (fun pattern => re_search pattern command_lower) DANGEROUS_PATTERNS.

(** ** Python effects: exceptions, the object store, the console *)

Module Py.

(** The exception classes the program names or can meet.  [str(e)] is
    carried along as [exn_text]. *)
Inductive exn_class : Type :=
| KeyboardInterrupt          (* derives from BaseException only *)
| EOFError
| TimeoutExpired             (* subprocess.TimeoutExpired *)
| RequestsTimeout            (* requests.exceptions.Timeout *)
| RequestsConnectionError    (* requests.exceptions.ConnectionError *)
| OtherException.            (* any other subclass of Exception *)

#[global] Instance exn_class_eq_dec : EqDecision exn_class.
Proof. solve_decision. Defined.

Record exn : Type := Exn { exn_cls : exn_class; exn_text : str }.

(** [isinstance(e, Exception)] *)
Definition is_Exception (e : exn) : bool :=
  match exn_cls e with
  | KeyboardInterrupt => false
  | _ => true
  end.

Inductive outcome (A : Type) : Type :=
| Returns (a : A)
| Raises (e : exn).
Arguments Returns {A} a.
Arguments Raises {A} e.

#[global] Instance outcome_ret : MRet outcome := @Returns.
#[global] Instance outcome_bind : MBind outcome :=
  λ A B k o, match o with
             | Returns a => k a
             | Raises e => Raises e
             end.

(** [subprocess.CompletedProcess] *)
Record completed : Type :=
  Completed { returncode : Z; stdout : str; stderr : str }.

(** What the program does to the outside world, in order. *)
Inductive event : Type :=
| EvPanel (command : str) (is_sensitive : bool)     (* display_command *)
| EvConfirmAsk (reply : outcome bool)               (* rich Confirm.ask *)
| EvConfirm (reply : outcome bool)                  (* prompt_toolkit confirm *)
| EvRun (command : str) (timeout : nat)             (* subprocess.run *)
| EvListed (entries : list str).                    (* the listing of the history command *)

(** The calls of [console.print] whose text the environment has a part
    in, one constructor for each format string of the source, with the
    parts that vary. *)
Inductive printed : Type :=
| PanelSensitive (command : str)    (* command_executor.py 54-61 *)
| PanelNormal (command : str)       (* command_executor.py 63-69 *)
| POutput (out : str)               (* command_executor.py 120 *)
| PErrorOutput (err : str)          (* command_executor.py 124 *)
| PCross (error_msg : str)          (* command_executor.py 134 *)
| PRed (msg : str)                  (* ai_agent.py 127, 131, 135, 206; main.py 180 *)
| PDebugUrl                         (* ai_agent.py 169 *)
| PDebugBody (messages : list str)  (* ai_agent.py 170 *)
| PTraceback (e : exn)              (* ai_agent.py 209; main.py 212 *)
| PAnswer (answer : str)            (* main.py 170 *)
| PSuggested (ai_response : str)    (* main.py 184 *)
| PHistoryLine (i : nat) (cmd : str) (* main.py 153 *)
| PLoopError (msg : str).           (* main.py 209 *)

(** The rich library: for each print, [None] when the markup renders,
    or the message of the [MarkupError] that it raises. *)
Record console : Type := Console { markup_error : printed → option str }.

Definition renders (con : console) (p : printed) : bool :=
  match markup_error con p with
  | None => true
  | Some _ => false
  end.

(** [rich.errors.MarkupError], a subclass of [Exception] *)
Definition MarkupError (msg : str) : exn := Exn OtherException msg.

(** [console.print(p)], as a value *)
Definition say (con : console) (p : printed) : outcome unit :=
  match markup_error con p with
  | None => Returns tt
  | Some msg => Raises (MarkupError msg)
  end.

Definition loc : Type := nat.

(** The store of Python list objects, and the events so far. *)
Record world : Type :=
  World { heap : gmap nat (list str); trace : list event }.

Definition M (A : Type) : Type := world → world * outcome A.

Definition ret {A} (a : A) : M A := λ w, (w, Returns a).

Definition raise {A} (e : exn) : M A := λ w, (w, Raises e).

Definition bind {A B} (m : M A) (k : A → M B) : M B :=
  λ w, match m w with
       | (w', Returns a) => k a w'
       | (w', Raises e) => (w', Raises e)
       end.

(** [try: m  except ...: h]; the handler re-raises what no clause takes,
    and what the handler itself raises leaves the statement. *)
Definition try_except {A} (m : M A) (h : exn → M A) : M A :=
  λ w, match m w with
       | (w', Returns a) => (w', Returns a)
       | (w', Raises e) => h e w'
       end.

Definition emit (ev : event) : M unit :=
  λ w, (World (heap w) (trace w ++ [ev]), Returns tt).

(** An external call whose result the environment decides. *)
Definition extern {A} (ev : event) (r : outcome A) : M A :=
  λ w, (World (heap w) (trace w ++ [ev]), r).

(** [console.print(p)] *)
Definition console_print (con : console) (p : printed) : M unit :=
  λ w, (w, say con p).

(** [[]] or [l.copy()]: a new list object. *)
Definition new_list (v : list str) : M loc :=
  λ w, let l := fresh (dom (heap w)) in
       (World (<[l := v]> (heap w)) (trace w), Returns l).

(** [l.append(x)] *)
Definition list_append (l : loc) (x : str) : M unit :=
  λ w, (World (alter (λ v, v ++ [x]) l (heap w)) (trace w), Returns tt).

(** Reading the contents of a list object. *)
Definition deref (w : world) (l : loc) : list str :=
  default [] (heap w !! l).

Definition read_list (l : loc) : M (list str) :=
  λ w, (w, Returns (deref w l)).

(** The truth value of a [str] *)
Definition non_empty (s : str) : bool :=
  match s with
  | [] => false
  | _ :: _ => true
  end.

End Py.
Export Py.

#[global] Instance M_ret : MRet M := @ret.
#[global] Instance M_bind : MBind M := λ A B k m, bind m k.

(** ** command_executor.py: the executor *)

(** What the environment answers during one call of [execute_command]. *)
Record exec_env : Type :=
  ExecEnv { confirm_ask : outcome bool;          (* Confirm.ask(..., default=False) *)
            subprocess_run : outcome completed }.

Module CommandExecutor.

(** The object: one attribute, a reference to a list. *)
Record t : Type := Make { command_history : loc }.

(** [__init__] *)
Definition init : M t :=
  h ← new_list []; mret (Make h).

(** [display_command]: one of the two panels is printed. *)
Definition display_command (con : console) (command : str) (is_sensitive : bool) : M unit :=
  console_print con (if is_sensitive then PanelSensitive command else PanelNormal command);;
  emit (EvPanel command is_sensitive).

Definition result : Type := bool * str * str.

Definition cancelled_text : str := L "User cancelled command execution".

Definition timeout_text : str :=
  L "Command execution timeout (exceeded "
    ++ L (NilZero.string_of_uint (Nat.to_uint COMMAND_TIMEOUT))
    ++ L " seconds)".

Definition error_text (e : exn) : str :=
  L "Error occurred while executing command: " ++ exn_text e.

(** Lines 116-124: the output is printed when the exit code is 0 and
    the output is not empty, the error output when the exit code is not 0
    and the error output is not empty.  (The exit code in line 122 is a
    number and renders.) *)
Definition show_result (con : console) (r : completed) : M unit :=
  if (returncode r =? 0)%Z
  then if non_empty (stdout r) then console_print con (POutput (stdout r)) else mret tt
  else if non_empty (stderr r) then console_print con (PErrorOutput (stderr r)) else mret tt.

(** Lines 104-135: the [try] block and its two handlers. *)
Definition run_guarded (con : console) (env : exec_env) (command : str) : M result :=
  try_except
    (r ← extern (EvRun command COMMAND_TIMEOUT) (subprocess_run env);
     show_result con r;;
     mret ((returncode r =? 0)%Z, stdout r, stderr r))
    (λ e,
       match exn_cls e with
       | TimeoutExpired => mret (false, [], timeout_text)
       | _ =>
           if is_Exception e
           then console_print con (PCross (error_text e));;
                mret (false, [], error_text e)
           else raise e
       end).

(** Lines 101-135: record the command, then run it. *)
Definition record_and_run (con : console) (self : t) (env : exec_env) (command : str)
    : M result :=
  list_append (command_history self) command;;
  run_guarded con env command.

(** [execute_command(command, auto_approve)] *)
Definition execute_command (con : console) (self : t) (env : exec_env)
    (command : str) (auto_approve : bool) : M result :=
  if auto_approve then
    display_command con command false;;
    record_and_run con self env command
  else
    let is_sensitive := is_sensitive_command command in
    display_command con command is_sensitive;;
    if is_sensitive then
      approved ← extern (EvConfirmAsk (confirm_ask env)) (confirm_ask env);
      if negb approved
      then mret (false, [], cancelled_text)
      else record_and_run con self env command
    else record_and_run con self env command.

(** [get_command_history]: [self.command_history.copy()] *)
Definition get_command_history (self : t) : M loc :=
  v ← read_list (command_history self); new_list v.

End CommandExecutor.

(** ** ai_agent.py *)

(** What the configuration and the translation service contribute to one
    call of [chat]: [api_reply] is the value of
    [self._parse_response(requests.post(...))], or the exception that
    this raises. *)
Record api_env : Type :=
  ApiEnv { API_TIMEOUT : nat; DEBUG_MODE : bool; api_reply : outcome str }.

Module AIAgent.

Inductive role : Type := User | Assistant.

Record t : Type :=
  Make { api_configured : bool;
         conversation_history : list (role * str) }.

(** [__init__]; [configured] is whether [AI_API_KEY] is set. *)
Definition init (configured : bool) : t := Make configured [].

Definition MARKER : str := L "NEEDS_APPROVAL:".

(** Lines 182-186 of [chat]: the marker test and its removal. *)
Definition check_marker (ai_response : str) : str * bool :=
  if startswith ai_response MARKER
  then (strip (replace ai_response MARKER []), true)
  else (ai_response, false).

Definition not_configured_text : str :=
  L "Error: AI service not configured. Please set AI_API_KEY environment variable.".

Definition chat_error_text (n : nat) (e : exn) : str :=
  match exn_cls e with
  | RequestsTimeout =>
      L "Error: API request timeout (exceeded "
        ++ L (NilZero.string_of_uint (Nat.to_uint n)) ++ L " seconds)"
  | RequestsConnectionError =>
      L "Error: Unable to connect to API server, please check network connection and API_URL configuration"
  | _ => L "Error: AI service error: " ++ exn_text e
  end.

(** Lines 158-180: the [try] block up to the parsed response; [self]
    is the agent after the append of line 152.  In debug mode the address
    and the body of the request are printed first. *)
Definition request_outcome (con : console) (self : t) (env : api_env) : outcome str :=
  if DEBUG_MODE env then
    say con PDebugUrl;;
    say con (PDebugBody (map snd (drop (length (conversation_history self) - 10)
                                       (conversation_history self))));;
    api_reply env
  else api_reply env.

(** Lines 196-210: the three handlers.  The messages of the first two
    are fixed texts and a number. *)
Definition chat_handler (con : console) (env : api_env) (e : exn) : outcome (str * bool) :=
  match exn_cls e with
  | RequestsTimeout | RequestsConnectionError =>
      Returns (chat_error_text (API_TIMEOUT env) e, false)
  | _ =>
      if is_Exception e then
        say con (PRed (L "AI service error: " ++ exn_text e));;
        (if DEBUG_MODE env then say con (PTraceback e) else Returns tt);;
        Returns (chat_error_text (API_TIMEOUT env) e, false)
      else Raises e
  end.

(** [chat(user_input)]: the agent after the call, and what the call
    returns or raises.  The call does not touch the list store. *)
Definition chat (con : console) (self : t) (env : api_env) (user_input : str)
    : t * outcome (str * bool) :=
  if negb (api_configured self) then (self, Returns (not_configured_text, false))
  else
    let self1 :=
      Make (api_configured self) (conversation_history self ++ [(User, user_input)]) in
    match request_outcome con self1 env with
    | Returns ai_response =>
        let '(ai_response, needs_approval) := check_marker ai_response in
        (Make (api_configured self1)
              (conversation_history self1 ++ [(Assistant, ai_response)]),
         Returns (ai_response, needs_approval))
    | Raises e => (self1, chat_handler con env e)
    end.

(** [clear_history] *)
Definition clear_history (self : t) : t := Make (api_configured self) [].

(** [get_history]: a copy of the list, which is a value here. *)
Definition get_history (self : t) : list (role * str) := conversation_history self.

End AIAgent.

(** ** main.py *)

(** What the environment answers during one turn of the loop. *)
Record turn_env : Type :=
  TurnEnv { pt_prompt : outcome str;      (* the line the user types *)
            api : api_env;
            confirm : outcome bool;       (* prompt_toolkit confirm() *)
            exec : exec_env;
            DEBUG : bool }.               (* os.getenv('DEBUG') is 'true' *)

Module Main.

Record session : Type :=
  Session { ai_agent : AIAgent.t; executor : CommandExecutor.t }.

Inductive control : Type := Continue | Break.

Definition is_interrupt (e : exn) : bool :=
  match exn_cls e with
  | KeyboardInterrupt | EOFError => true
  | _ => false
  end.

(** [get_user_input] *)
Definition get_user_input (reply : outcome str) : M str :=
  match reply with
  | Returns user_input => mret (strip user_input)
  | Raises e => if is_interrupt e then mret [] else raise e
  end.

(** [get_confirmation] *)
Definition get_confirmation (reply : outcome bool) : M bool :=
  try_except (extern (EvConfirm reply) reply)
             (λ e, if is_interrupt e then mret false else raise e).

Definition str_eqb (a b : str) : bool := bool_decide (a = b).

(** Lines 186-200: the approval decision of the loop and the hand-over
    to the executor. *)
Definition dispatch (con : console) (ex : CommandExecutor.t) (env : turn_env)
    (ai_response : str) (needs_approval : bool) : M unit :=
  if needs_approval then
    get_confirmation (confirm env) ≫= λ should_execute : bool,
    if should_execute
    then CommandExecutor.execute_command con ex (exec env) ai_response true;; mret tt
    else mret tt
  else
    CommandExecutor.execute_command con ex (exec env) ai_response true;; mret tt.

(** Lines 167-200: what the loop does with the answer of [chat]. *)
Definition handle_response (con : console) (ex : CommandExecutor.t) (env : turn_env)
    (ai_response : str) (needs_approval : bool) : M unit :=
  if startswith ai_response (L "QUESTION:") then
    console_print con (PAnswer (strip (replace ai_response (L "QUESTION:") [])))
  else if str_eqb ai_response (L "UNKNOWN") then mret tt
  else if startswith ai_response (L "Error:") then console_print con (PRed ai_response)
  else
    console_print con (PSuggested ai_response);;
    dispatch con ex env ai_response needs_approval.

(** Lines 152-153: one line for each entry, numbered from [i]. *)
Fixpoint print_lines (con : console) (i : nat) (cmds : list str) : M unit :=
  match cmds with
  | [] => mret tt
  | cmd :: rest => console_print con (PHistoryLine i cmd);; print_lines con (S i) rest
  end.

(** Lines 149-155: the [history] command.  The listing is recorded when
    all of it has been printed. *)
Definition show_history (con : console) (ex : CommandExecutor.t) : M unit :=
  history ← CommandExecutor.get_command_history ex;
  v ← read_list history;
  print_lines con 1 v;;
  emit (EvListed v).

(** The three [except] clauses that close the loop body.  What the last
    clause raises while it prints leaves [main]. *)
Definition on_exception (con : console) (env : turn_env) (s : session) (e : exn)
    : M (session * control) :=
  match exn_cls e with
  | KeyboardInterrupt | EOFError => mret (s, Break)
  | _ =>
      console_print con (PLoopError (exn_text e));;
      (if DEBUG env then console_print con (PTraceback e) else mret tt);;
      mret (s, Continue)
  end.

(** How a piece of the [try] block ends, with the session as it stands. *)
Definition attempt (s : session) (m : M control)
    : world → world * (session * outcome control) :=
  λ w, let '(w', r) := m w in (w', (s, r)).

(** Lines 132-200: the [try] block of one turn.  The session is given
    back also when the block raises, so that the agent as [chat] left it
    is the one the loop goes on with. *)
Definition turn_body (con : console) (s : session) (env : turn_env)
    : world → world * (session * outcome control) :=
  λ w,
    match get_user_input (pt_prompt env) w with
    | (w0, Raises e) => (w0, (s, Raises e))
    | (w0, Returns user_input) =>
        let cmd := lower user_input in
        if str_eqb user_input [] then (w0, (s, Returns Continue))
        else if str_eqb cmd (L "exit") || str_eqb cmd (L "quit") || str_eqb cmd (L "q")
        then (w0, (s, Returns Break))
        else if str_eqb cmd (L "help") then (w0, (s, Returns Continue))
        else if str_eqb cmd (L "history") then
          attempt s (show_history con (executor s);; mret Continue) w0
        else if str_eqb cmd (L "clear") then
          (w0, (Session (AIAgent.clear_history (ai_agent s)) (executor s), Returns Continue))
        else
          let '(agent, answer) := AIAgent.chat con (ai_agent s) (api env) user_input in
          let s' := Session agent (executor s) in
          match answer with
          | Returns (ai_response, needs_approval) =>
              attempt s' (handle_response con (executor s) env ai_response needs_approval;;
                          mret Continue) w0
          | Raises e => (w0, (s', Raises e))
          end
    end.

(** One turn of [while True]: the [try] block, then its handlers. *)
Definition main_step (con : console) (s : session) (env : turn_env)
    : M (session * control) :=
  λ w, let '(w1, (s1, r)) := turn_body con s env w in
       match r with
       | Returns c => (w1, Returns (s1, c))
       | Raises e => on_exception con env s1 e w1
       end.

(** The loop, for as many turns as the environment provides. *)
Fixpoint main_loop (con : console) (s : session) (envs : list turn_env) : M session :=
  match envs with
  | [] => mret s
  | env :: rest =>
      r ← main_step con s env;
      match r with
      | (s', Break) => mret s'
      | (s', Continue) => main_loop con s' rest
      end
  end.

(** [main()] *)
Definition main (con : console) (configured : bool) (envs : list turn_env) : M session :=
  ex ← CommandExecutor.init;
  main_loop con (Session (AIAgent.init configured) ex) envs.

Definition empty_world : world := World ∅ [].

End Main.

(** ** Vocabulary of the properties *)

Module Spec.

(** The two labels of the classifier. *)
Inductive Classification : Type := SAFE | SENSITIVE.

Definition classify (command : str) : Classification :=
  if is_sensitive_command command then SENSITIVE else SAFE.

(** The lower-cased command contains a configured keyword as a
    substring, or a configured pattern matches somewhere in it. *)
Definition flagged (command : str) : Prop :=
  (∃ keyword, keyword ∈ SENSITIVE_COMMAND_KEYWORDS
              ∧ occurs_in keyword (lower command))
  ∨ (∃ pattern, pattern ∈ DANGEROUS_PATTERNS
                ∧ found pattern (lower command)).

(** A string that begins and ends with a character that is not
    whitespace; [strip] cannot cut into an occurrence of such a string. *)
Definition solid_head (m : str) : bool :=
  match m with
  | [] => false
  | c :: _ => negb (isspace c)
  end.

Definition solid (m : str) : bool := solid_head m && solid_head (rev m).

(** Patterns all of whose matches begin, respectively end, with a
    character that is not whitespace (a sufficient syntactic test). *)
Fixpoint starts_solid (r : regex) : bool :=
  match r with
  | Chr c => negb (isspace c)
  | Cat r1 _ => starts_solid r1
  | Alt r1 r2 => starts_solid r1 && starts_solid r2
  | _ => false
  end.

Fixpoint ends_solid (r : regex) : bool :=
  match r with
  | Chr c => negb (isspace c)
  | Cat _ r2 => ends_solid r2
  | Alt r1 r2 => ends_solid r1 && ends_solid r2
  | _ => false
  end.

Inductive ApprovalDecision : Type :=
| AUTO_APPROVED | USER_APPROVED | USER_DENIED.

(** The decision [execute_command] reaches before line 101, read off
    its branches; an exception of the prompt leaves it undecided. *)
Definition executor_gate (env : exec_env) (command : str) (auto_approve : bool)
    : outcome ApprovalDecision :=
  if auto_approve then Returns AUTO_APPROVED
  else if is_sensitive_command command then
    match confirm_ask env with
    | Returns true => Returns USER_APPROVED
    | Returns false => Returns USER_DENIED
    | Raises e => Raises e
    end
  else Returns AUTO_APPROVED.

(** The decision the loop of [main] reaches at lines 187-200. *)
Definition main_gate (env : turn_env) (needs_approval : bool)
    : outcome ApprovalDecision :=
  if needs_approval then
    match confirm env with
    | Returns true => Returns USER_APPROVED
    | Returns false => Returns USER_DENIED
    | Raises e => if Main.is_interrupt e then Returns USER_DENIED else Raises e
    end
  else Returns AUTO_APPROVED.

Definition approved (d : outcome ApprovalDecision) : bool :=
  match d with
  | Returns AUTO_APPROVED | Returns USER_APPROVED => true
  | _ => false
  end.

(** The panel that [execute_command] prints first. *)
Definition panel_of (command : str) (auto_approve : bool) : printed :=
  if negb auto_approve && is_sensitive_command command
  then PanelSensitive command
  else PanelNormal command.

(** What [show_result] prints for a completed run, if anything. *)
Definition output_of (r : completed) : option printed :=
  if (returncode r =? 0)%Z
  then if non_empty (stdout r) then Some (POutput (stdout r)) else None
  else if non_empty (stderr r) then Some (PErrorOutput (stderr r)) else None.

Definition renders_all (con : console) (o : option printed) : bool :=
  match o with
  | Some p => renders con p
  | None => true
  end.

(** The handler of line 132 for an [Exception] that is no timeout. *)
Definition after_error (con : console) (e : exn) : outcome CommandExecutor.result :=
  say con (PCross (CommandExecutor.error_text e));;
  Returns (false, [], CommandExecutor.error_text e).

(** Lines 104-135 as a value: how the call ends once the command has
    been handed to [subprocess.run]. *)
Definition run_value (con : console) (env : exec_env)
    : outcome CommandExecutor.result :=
  match subprocess_run env with
  | Returns r =>
      match output_of r with
      | None => Returns ((returncode r =? 0)%Z, stdout r, stderr r)
      | Some p =>
          match markup_error con p with
          | None => Returns ((returncode r =? 0)%Z, stdout r, stderr r)
          | Some msg => after_error con (MarkupError msg)
          end
      end
  | Raises e =>
      match exn_cls e with
      | TimeoutExpired => Returns (false, [], CommandExecutor.timeout_text)
      | _ => if is_Exception e then after_error con e else Raises e
      end
  end.

(** The events of [execute_command] before line 101 when the command
    goes through. *)
Definition gate_events (env : exec_env) (command : str) (auto_approve : bool)
    : list event :=
  if auto_approve then [EvPanel command false]
  else if is_sensitive_command command
       then [EvPanel command true; EvConfirmAsk (confirm_ask env)]
       else [EvPanel command false].

(** The commands handed to [subprocess.run], in order. *)
Definition launched (tr : list event) : list str :=
  omap (λ ev, match ev with EvRun c _ => Some c | _ => None end) tr.

(** The prompts put to the user, in order. *)
Definition is_prompt (ev : event) : bool :=
  match ev with
  | EvConfirmAsk _ | EvConfirm _ => true
  | _ => false
  end.

Definition prompts (tr : list event) : list event := List.filter is_prompt tr.

(** One call of [execute_command] together with what the environment
    answers during it. *)
Record invocation : Type :=
  Invocation { inv_env : exec_env; inv_command : str; inv_auto : bool }.

Definition inv_approved (i : invocation) : bool :=
  approved (executor_gate (inv_env i) (inv_command i) (inv_auto i)).

(** The call gets as far as line 101: its panel is shown and the
    decision is an approval. *)
Definition inv_recorded (con : console) (i : invocation) : bool :=
  renders con (panel_of (inv_command i) (inv_auto i)) && inv_approved i.

(** A series of calls on one executor; the caller goes on whatever a
    call returns or raises, as the loop of [main] does. *)
Fixpoint run_all (con : console) (self : CommandExecutor.t) (invs : list invocation)
    (w : world) : world :=
  match invs with
  | [] => w
  | i :: rest =>
      run_all con self rest
        (CommandExecutor.execute_command con self (inv_env i) (inv_command i) (inv_auto i) w).1
  end.

(** The executor's list object exists in the store. *)
Definition live (self : CommandExecutor.t) (w : world) : Prop :=
  is_Some (heap w !! CommandExecutor.command_history self).

(** What one piece of the loop may do to the history of the executor
    and to the list of launches: both grow by the same commands. *)
Definition in_step (ex : CommandExecutor.t) (w w' : world) : Prop :=
  live ex w' ∧
  ∃ new, deref w' (CommandExecutor.command_history ex)
         = deref w (CommandExecutor.command_history ex) ++ new
         ∧ launched (trace w') = launched (trace w) ++ new.

End Spec.
Export Spec.

(** ** Sample inputs *)

Module Sample.

(** A session right after [CommandExecutor.init]. *)
Definition ex0 : CommandExecutor.t := CommandExecutor.Make 0.
Definition w0 : world := World {[ 0 := [] ]} [].

Definition done_ok : outcome completed := Returns (Completed 0 (L "hello") []).
Definition done_failed : outcome completed := Returns (Completed 1 (L "out") (L "err")).
Definition timed_out : outcome completed := Raises (Exn TimeoutExpired []).
Definition no_shell : outcome completed :=
  Raises (Exn OtherException (L "[Errno 2] No such file or directory: '/bin/sh'")).

Definition interrupt : exn := Exn KeyboardInterrupt [].
Definition end_of_input : exn := Exn EOFError [].

(** The text of a print that the environment has a part in. *)
Definition varying (p : printed) : list str :=
  match p with
  | PanelSensitive s | PanelNormal s | POutput s | PErrorOutput s | PCross s
  | PRed s | PAnswer s | PSuggested s | PHistoryLine _ s | PLoopError s => [s]
  | PDebugBody l => l
  | PTraceback e => [exn_text e]
  | PDebugUrl => []
  end.

(** A console that renders every text without a closing tag and refuses
    every text in which [[/] occurs, with a message that quotes the text
    (rich quotes the tag and its position).  It agrees with rich on the
    texts without an opening bracket and on the sample texts below, where
    the closing tag matches no open tag. *)
Definition refused (p : printed) : option str :=
  List.find (λ s, contains s (L "[/")) (varying p).

Definition rich : console :=
  Console (λ p, match refused p with
                | Some s => Some (L "closing tag in '" ++ s ++ L "' doesn't match any open tag")
                | None => None
                end).

(** A turn in which the user types [line], the service answers [reply],
    the user answers [yes] to a confirmation and the run gives [run]. *)
Definition turn (line reply : string) (yes : bool) (run : outcome completed) : turn_env :=
  TurnEnv (Returns (L line)) (ApiEnv 30 false (Returns (L reply)))
          (Returns yes) (ExecEnv (Returns yes) run) false.

End Sample.

(** ** ai_agent.py: the request and the parsing of the response *)

Module Request.

Inductive sender : Type := System | Of (r : AIAgent.role).

(** [l[-n:]] for a positive [n] *)
Definition last_n {A} (n : nat) (l : list A) : list A := drop (length l - n) l.

(** Lines 159-161 of [chat]: the messages of the request, built after
    the user's input has been appended to the conversation.  The text of
    [self.system_prompt] is an argument. *)
Definition messages (system_prompt : str) (self : AIAgent.t) (user_input : str)
    : list (sender * str) :=
  (System, system_prompt)
  :: last_n 10 (map (λ m, (Of m.1, m.2))
                    (AIAgent.conversation_history self ++ [(AIAgent.User, user_input)])).

End Request.

Module Json.

(** The value of [response.json()].  A dict is given by its items; a
    number by its literal, which the code never inspects. *)
#[warnings="-register-all"]
Inductive json : Type :=
| JNull
| JBool (b : bool)
| JNum (literal : str)
| JStr (s : str)
| JArr (items : list json)
| JObj (fields : list (str * json)).

(** The run-time errors of the operations that [_parse_response]
    applies to the decoded data. *)
Inductive fault : Type :=
| NotContainer (data : json)              (* [key in data] on None, a bool or a number *)
| NotSubscriptable (data : json)          (* [data[key]] on a list or a str *)
| KeyMissing (key : str)                  (* [data[key]] on a dict without the key *)
| NoLen (v : json)                        (* [len(v)] on None, a bool or a number *)
| NoItemZero (v : json)                   (* [v[0]] on a dict, on something empty or not indexable *)
| NoAttribute (v : json) (attr : string). (* [v.get] off a dict, [v.strip] off a str *)

Inductive result (A : Type) : Type :=
| Ok (a : A)
| Fault (f : fault).
Arguments Ok {A} a.
Arguments Fault {A} f.

Definition and_then {A B} (r : result A) (k : A → result B) : result B :=
  match r with
  | Ok a => k a
  | Fault f => Fault f
  end.

Fixpoint lookup_field (key : str) (fields : list (str * json)) : option json :=
  match fields with
  | [] => None
  | (k, v) :: rest => if bool_decide (k = key) then Some v else lookup_field key rest
  end.

Definition is_str (key : str) (v : json) : bool :=
  match v with
  | JStr s => bool_decide (s = key)
  | _ => false
  end.

(** [key in data] *)
Definition py_in (key : str) (data : json) : result bool :=
  match data with
  | JObj fields => Ok (bool_decide (is_Some (lookup_field key fields)))
  | JArr items => Ok (existsb (is_str key) items)
  | JStr s => Ok (contains s key)
  | _ => Fault (NotContainer data)
  end.

(** [data[key]] for a string [key] *)
Definition py_getitem (data : json) (key : str) : result json :=
  match data with
  | JObj fields =>
      match lookup_field key fields with
      | Some v => Ok v
      | None => Fault (KeyMissing key)
      end
  | _ => Fault (NotSubscriptable data)
  end.

(** [len(v)] *)
Definition py_len (v : json) : result nat :=
  match v with
  | JArr items => Ok (length items)
  | JStr s => Ok (length s)
  | JObj fields => Ok (length fields)
  | _ => Fault (NoLen v)
  end.

(** [v[0]] *)
Definition py_item0 (v : json) : result json :=
  match v with
  | JArr (x :: _) => Ok x
  | JStr (c :: _) => Ok (JStr [c])
  | _ => Fault (NoItemZero v)
  end.

(** [v.get(key, dflt)] *)
Definition py_get (v : json) (key : str) (dflt : json) : result json :=
  match v with
  | JObj fields => Ok (default dflt (lookup_field key fields))
  | _ => Fault (NoAttribute v "get")
  end.

(** [v.strip()] *)
Definition py_strip (v : json) : result str :=
  match v with
  | JStr s => Ok (strip s)
  | _ => Fault (NoAttribute v "strip")
  end.

End Json.
Export Json.

(** What the Python run time contributes to [_parse_response]: the text
    of its own error messages and [json.dumps(data, ensure_ascii=False,
    indent=2)]. *)
Record runtime : Type :=
  Runtime { describe : fault → str; dumps : json → str }.

(** What [response.json()] does. *)
Inductive decoding : Type :=
| Decoded (data : json)
| JSONDecodeError (text : str)
| DecodeException (text : str).      (* any other Exception *)

(** A [requests.Response] as far as [_parse_response] looks at it. *)
Record response : Type :=
  Response { status_code : nat; text : str; json_body : decoding }.

Module Parse.

(** [data[key].strip()] *)
Definition field_stripped (data : json) (key : str) : result str :=
  and_then (py_getitem data key) py_strip.

(** Lines 106-109: the branch of the OpenAI-compatible format. *)
Definition from_choices (data : json) : result str :=
  and_then (py_getitem data (L "choices")) (λ choices,
  and_then (py_item0 choices) (λ first,
  and_then (py_get first (L "message") (JObj [])) (λ message,
  and_then (py_get message (L "content") (JStr [])) py_strip))).

(** The condition of line 106, with the short-circuit of [and]. *)
Definition has_choices (data : json) : result bool :=
  and_then (py_in (L "choices") data) (λ present,
  if present
  then and_then (py_getitem data (L "choices")) (λ choices,
       and_then (py_len choices) (λ n, Ok (0 <? n)))
  else Ok false).

(** Lines 111-123: the other formats, then the whole response. *)
Definition from_other (rt : runtime) (data : json) : result str :=
  and_then (py_in (L "content") data) (λ c,
  if c then field_stripped data (L "content") else
  and_then (py_in (L "text") data) (λ t,
  if t then field_stripped data (L "text") else
  and_then (py_in (L "response") data) (λ r,
  if r then field_stripped data (L "response") else
  Ok (dumps rt data)))).

(** Lines 103-123: the body of the [try] after [raise_for_status]. *)
Definition extract (rt : runtime) (data : json) : result str :=
  and_then (has_choices data) (λ yes,
  if yes then from_choices data else from_other rt data).

(** [raise_for_status] raises for the codes 400 to 599. *)
Definition is_http_error (r : response) : bool :=
  (400 <=? status_code r) && (status_code r <? 600).

(** The messages of the three handlers, as printed; what is returned
    has [Error: ] in front. *)
Definition http_error_msg (r : response) : str :=
  L "API HTTP Error: "
    ++ L (NilZero.string_of_uint (Nat.to_uint (status_code r)))
    ++ L " - " ++ text r.

Definition parsing_error_msg (t : str) : str :=
  L "API response parsing error: " ++ t.

Definition processing_error_msg (t : str) : str :=
  L "API response processing error: " ++ t.

(** A handler: print the message in red, return it behind [Error: ]. *)
Definition report (con : console) (error_msg : str) : outcome str :=
  say con (PRed error_msg);;
  Returns (L "Error: " ++ error_msg).

(** [AIAgent._parse_response] *)
Definition _parse_response (con : console) (rt : runtime) (r : response) : outcome str :=
  if is_http_error r then report con (http_error_msg r)
  else
    match json_body r with
    | JSONDecodeError t => report con (parsing_error_msg t)
    | DecodeException t => report con (processing_error_msg t)
    | Decoded data =>
        match extract rt data with
        | Ok content => Returns content
        | Fault f => report con (processing_error_msg (describe rt f))
        end
    end.

End Parse.

(** ** Vocabulary of the properties of a session *)

Module SessionSpec.

(** The answers of the translator that the loop shows instead of running
    them (lines 168, 174 and 179 of [main]). *)
Definition is_answer (ai_response : str) : bool :=
  startswith ai_response (L "QUESTION:")
  || Main.str_eqb ai_response (L "UNKNOWN")
  || startswith ai_response (L "Error:").

(** The events of lines 187-200: the loop's own prompt, the blue panel
    and the launch. *)
Definition dispatch_event (ev : event) : bool :=
  match ev with
  | EvConfirm _ | EvRun _ _ => true
  | EvPanel _ is_sensitive => negb is_sensitive
  | _ => false
  end.

Definition loop_event (ev : event) : bool :=
  match ev with
  | EvListed _ => true
  | _ => dispatch_event ev
  end.

(** Every listing printed by the [history] command shows the commands
    launched before it. *)
Definition listings_faithful (tr : list event) : Prop :=
  ∀ tr1 entries tr2, tr = tr1 ++ EvListed entries :: tr2 → entries = launched tr1.

(** The two ways in which [main] ends: it returns, or rich refuses a
    print of its last handler (lines 209 and 212) and the [MarkupError]
    leaves [main]. *)
Definition returns_or_refused {A} (con : console) (r : outcome A) : Prop :=
  (∃ a, r = Returns a)
  ∨ (∃ e msg,
       (markup_error con (PLoopError (exn_text e)) = Some msg
        ∨ markup_error con (PTraceback e) = Some msg)
       ∧ r = Raises (MarkupError msg)).

(** The words that end the loop. *)
Definition exit_words : list str := [L "exit"; L "quit"; L "q"].

(** The words the loop handles itself; any other non-empty line goes to
    the translator. *)
Definition special_words : list str :=
  exit_words ++ [L "help"; L "history"; L "clear"].

End SessionSpec.
Export SessionSpec.

(** * Properties *)

(** ** Strings *)

Section StringFacts.

Implicit Types s k p m pre post : str.

Lemma startswith_spec s p :
  startswith s p = true ↔ ∃ post, s = p ++ post.
Proof.
  revert s. induction p as [|a p IH]; intros s; simpl.
  - split; [intros _; by exists s | done].
  - destruct s as [|b s].
    + split; [done | intros [post H]; discriminate].
    + rewrite andb_true_iff, Ascii.eqb_eq, IH. split.
      * intros [-> [post ->]]. by exists post.
      * intros [post H]. injection H as -> ->. eauto.
Qed.

Lemma contains_spec s k :
  contains s k = true ↔ occurs_in k s.
Proof.
  unfold occurs_in. induction s as [|c s IH]; simpl.
  - rewrite orb_false_r, startswith_spec. split.
    + intros [post H]. by exists [], post.
    + intros (pre & post & H). destruct pre; [by exists post|discriminate].
  - rewrite orb_true_iff, startswith_spec, IH. split.
    + intros [[post H] | (pre & post & H)].
      * by exists [], post.
      * exists (c :: pre), post. by rewrite H.
    + intros (pre & post & H). destruct pre as [|a pre].
      * left. by exists post.
      * right. injection H as _ H. by exists pre, post.
Qed.

Lemma lstrip_suffix s : ∃ ws, s = ws ++ lstrip s.
Proof.
  induction s as [|c s [ws IH]]; simpl.
  - by exists [].
  - destruct (isspace c); [|by exists []].
    exists (c :: ws). by rewrite IH at 1.
Qed.

Lemma strip_infix s : ∃ ws1 ws2, s = ws1 ++ strip s ++ ws2.
Proof.
  unfold strip, rstrip.
  destruct (lstrip_suffix s) as [ws1 H1].
  destruct (lstrip_suffix (rev (lstrip s))) as [ws2 H2].
  exists ws1, (rev ws2).
  rewrite <- rev_app_distr, <- H2, rev_involutive. exact H1.
Qed.

(** An occurrence that starts with a solid character survives [lstrip]. *)
Lemma lstrip_keeps pre m post :
  solid_head m = true → ∃ pre', lstrip (pre ++ m ++ post) = pre' ++ m ++ post.
Proof.
  intros Hm. induction pre as [|a pre IH]; simpl.
  - exists []. destruct m as [|c m]; [done|]. simpl in *.
    by destruct (isspace c).
  - destruct (isspace a); [exact IH | by exists (a :: pre)].
Qed.

Lemma strip_keeps pre m post :
  solid m = true → ∃ pre' post', strip (pre ++ m ++ post) = pre' ++ m ++ post'.
Proof.
  unfold solid. rewrite andb_true_iff. intros [Hh Ht].
  destruct (lstrip_keeps pre m post Hh) as [pre' H1].
  unfold strip, rstrip. rewrite H1.
  rewrite !rev_app_distr, <- app_assoc.
  destruct (lstrip_keeps (rev post) (rev m) (rev pre') Ht) as [post' H2].
  rewrite H2. exists pre', (rev post').
  by rewrite !rev_app_distr, !rev_involutive, <- app_assoc.
Qed.

(** [strip] neither creates nor destroys an occurrence of a solid string. *)
Lemma occurs_in_strip k s :
  solid k = true → occurs_in k (strip s) ↔ occurs_in k s.
Proof.
  intros Hk. unfold occurs_in. split.
  - intros (pre & post & H).
    destruct (strip_infix s) as (ws1 & ws2 & Hs).
    exists (ws1 ++ pre), (post ++ ws2).
    rewrite Hs at 1. rewrite H. by rewrite <- !app_assoc.
  - intros (pre & post & ->). by apply strip_keeps.
Qed.

End StringFacts.

(** ** Regular expressions *)

Section RegexFacts.

Implicit Types (r : regex) (s m : str) (a c : ascii).

Lemma matches_void s : matches Void s ↔ False.
Proof. split; [inversion 1 | done]. Qed.

Lemma matches_eps s : matches Eps s ↔ s = [].
Proof. split; [by inversion 1 | intros ->; constructor]. Qed.

Lemma matches_chr c s : matches (Chr c) s ↔ s = [c].
Proof. split; [by inversion 1 | intros ->; constructor]. Qed.

Lemma matches_space s : matches Space s ↔ ∃ c, s = [c] ∧ isspace c = true.
Proof.
  split.
  - inversion 1; subst. eauto.
  - intros (c & -> & H). by constructor.
Qed.

Lemma matches_dot s : matches Dot s ↔ ∃ c, s = [c] ∧ c ≠ newline.
Proof.
  split.
  - inversion 1; subst. eauto.
  - intros (c & -> & H). by constructor.
Qed.

Lemma matches_cat r1 r2 s :
  matches (Cat r1 r2) s ↔ ∃ s1 s2, s = s1 ++ s2 ∧ matches r1 s1 ∧ matches r2 s2.
Proof.
  split.
  - inversion 1; subst. eauto.
  - intros (s1 & s2 & -> & H1 & H2). by constructor.
Qed.

Lemma matches_alt r1 r2 s :
  matches (Alt r1 r2) s ↔ matches r1 s ∨ matches r2 s.
Proof.
  split.
  - inversion 1; subst; auto.
  - intros [H | H]; [by apply M_alt_l | by apply M_alt_r].
Qed.

(** A non-empty match of [r*] starts with a non-empty match of [r]. *)
Lemma matches_star_cons r a s :
  matches (Star r) (a :: s) →
  ∃ s1 s2, s = s1 ++ s2 ∧ matches r (a :: s1) ∧ matches (Star r) s2.
Proof.
  intros H. remember (Star r) as r' eqn:Er. remember (a :: s) as t eqn:Et.
  induction H as [| | | | | | | |r0 s1 s2 H1 _ H2 IH2]; try discriminate.
  injection Er as ->. destruct s1 as [|b s1]; simpl in Et.
  - by apply IH2.
  - injection Et as -> <-. eauto.
Qed.

Lemma nullable_spec r : nullable r = true ↔ matches r [].
Proof.
  induction r as [| | | | |r1 IH1 r2 IH2|r1 IH1 r2 IH2|r IH]; simpl.
  - by rewrite matches_void.
  - by rewrite matches_eps.
  - by rewrite matches_chr.
  - rewrite matches_space. split; [done | by intros (c & ? & _)].
  - rewrite matches_dot. split; [done | by intros (c & ? & _)].
  - rewrite andb_true_iff, IH1, IH2, matches_cat. split.
    + intros [H1 H2]. by exists [], [].
    + intros (s1 & s2 & E & H1 & H2).
      symmetry in E. apply app_eq_nil in E as [-> ->]. done.
  - by rewrite orb_true_iff, IH1, IH2, matches_alt.
  - split; [intros _; constructor | done].
Qed.

(** The derivative is the language of the rests after one character. *)
Lemma deriv_spec a r s : matches (deriv a r) s ↔ matches r (a :: s).
Proof.
  revert s.
  induction r as [| |c| | |r1 IH1 r2 IH2|r1 IH1 r2 IH2|r IH]; intros s; simpl.
  - by rewrite !matches_void.
  - by rewrite matches_void, matches_eps.
  - rewrite matches_chr. destruct (Ascii.eqb a c) eqn:E.
    + apply Ascii.eqb_eq in E as ->. rewrite matches_eps. split; [by intros ->|congruence].
    + apply Ascii.eqb_neq in E. rewrite matches_void. split; [done|congruence].
  - rewrite matches_space. destruct (isspace a) eqn:E.
    + rewrite matches_eps. split; [intros ->; eauto | by intros (c & [= -> ->] & _)].
    + rewrite matches_void. split; [done | intros (c & [= -> ->] & ?); congruence].
  - rewrite matches_dot. destruct (Ascii.eqb a newline) eqn:E.
    + apply Ascii.eqb_eq in E as ->. rewrite matches_void.
      split; [done | by intros (c & [= -> ->] & ?)].
    + apply Ascii.eqb_neq in E. rewrite matches_eps.
      split; [intros ->; eauto | by intros (c & [= -> ->] & _)].
  - assert (matches (Cat (deriv a r1) r2) s ↔
            ∃ s1 s2, s = s1 ++ s2 ∧ matches r1 (a :: s1) ∧ matches r2 s2) as Hcat.
    { rewrite matches_cat. by setoid_rewrite IH1. }
    rewrite (matches_cat r1 r2). destruct (nullable r1) eqn:N.
    + rewrite matches_alt, Hcat, IH2. apply nullable_spec in N. split.
      * intros [(s1 & s2 & -> & H1 & H2) | H2].
        -- by exists (a :: s1), s2.
        -- by exists [], (a :: s).
      * intros (s1 & s2 & E & H1 & H2). destruct s1 as [|b s1]; simpl in E.
        -- right. by subst.
        -- left. injection E as -> ->. eauto.
    + rewrite Hcat. split.
      * intros (s1 & s2 & -> & H1 & H2). by exists (a :: s1), s2.
      * intros (s1 & s2 & E & H1 & H2). destruct s1 as [|b s1]; simpl in E.
        -- apply nullable_spec in H1. congruence.
        -- injection E as -> ->. eauto.
  - by rewrite !matches_alt, IH1, IH2.
  - rewrite matches_cat. setoid_rewrite IH. split.
    + intros (s1 & s2 & -> & H1 & H2). by apply (M_star_app r (a :: s1) s2).
    + apply matches_star_cons.
Qed.

Lemma re_match_spec r s :
  re_match r s = true ↔ ∃ m post, s = m ++ post ∧ matches r m.
Proof.
  revert r. induction s as [|c s IH]; intros r; simpl.
  - rewrite orb_false_r, nullable_spec. split.
    + intros H. by exists [], [].
    + intros (m & post & E & H).
      symmetry in E. apply app_eq_nil in E as [-> _]. done.
  - rewrite orb_true_iff, nullable_spec, IH. split.
    + intros [H | (m & post & -> & H)].
      * by exists [], (c :: s).
      * exists (c :: m), post. by rewrite <- deriv_spec.
    + intros (m & post & E & H). destruct m as [|b m]; simpl in E.
      * by left.
      * right. injection E as -> ->. exists m, post. by rewrite deriv_spec.
Qed.

(** [re_search] decides [found]. *)
Lemma re_search_spec r s : re_search r s = true ↔ found r s.
Proof.
  unfold found. induction s as [|c s IH]; cbn [re_search].
  - rewrite orb_false_r, re_match_spec. split.
    + intros (m & post & E & H). by exists [], m, post.
    + intros (pre & m & post & E & H).
      destruct pre; [by exists m, post | discriminate].
  - rewrite orb_true_iff, re_match_spec, IH. split.
    + intros [(m & post & E & H) | (pre & m & post & E & H)].
      * by exists [], m, post.
      * exists (c :: pre), m, post. by rewrite E.
    + intros (pre & m & post & E & H). destruct pre as [|b pre]; simpl in E.
      * left. by exists m, post.
      * right. injection E as _ E. by exists pre, m, post.
Qed.

Lemma starts_solid_spec r m :
  starts_solid r = true → matches r m → solid_head m = true.
Proof.
  intros Hr H. induction H; simpl in *; try done.
  - destruct s1; [by specialize (IHmatches1 Hr) | by apply IHmatches1].
  - apply andb_true_iff in Hr as [? ?]. auto.
  - apply andb_true_iff in Hr as [? ?]. auto.
Qed.

Lemma ends_solid_spec r m :
  ends_solid r = true → matches r m → solid_head (rev m) = true.
Proof.
  intros Hr H. induction H; simpl in *; try done.
  - rewrite rev_app_distr. specialize (IHmatches2 Hr).
    destruct (rev s2); [done | by simpl].
  - apply andb_true_iff in Hr as [? ?]. auto.
  - apply andb_true_iff in Hr as [? ?]. auto.
Qed.

(** [strip] neither creates nor destroys a match of a pattern whose
    matches are solid at both ends. *)
Lemma found_strip r s :
  starts_solid r = true → ends_solid r = true →
  found r (strip s) ↔ found r s.
Proof.
  intros Hs He. unfold found. split.
  - intros (pre & m & post & E & H).
    destruct (strip_infix s) as (ws1 & ws2 & Hw).
    exists (ws1 ++ pre), m, (post ++ ws2). split; [|done].
    rewrite Hw at 1. rewrite E. by rewrite <- !app_assoc.
  - intros (pre & m & post & -> & H).
    destruct (strip_keeps pre m post) as (pre' & post' & E).
    { unfold solid. rewrite (starts_solid_spec r m), (ends_solid_spec r m); done. }
    by exists pre', m, post'.
Qed.

End RegexFacts.

(** ** The classifier *)

Lemma keywords_solid keyword :
  keyword ∈ SENSITIVE_COMMAND_KEYWORDS → solid keyword = true.
Proof.
  intros H. apply list_elem_of_In in H. revert keyword H.
  apply forallb_forall. by vm_compute.
Qed.

Lemma patterns_solid pattern :
  pattern ∈ DANGEROUS_PATTERNS →
  starts_solid pattern = true ∧ ends_solid pattern = true.
Proof.
  intros H. apply list_elem_of_In in H. apply andb_true_iff.
  revert pattern H. apply forallb_forall. by vm_compute.
Qed.

Lemma is_sensitive_command_flagged command :
  is_sensitive_command command = true ↔ flagged command.
Proof.
  unfold is_sensitive_command, flagged.
  rewrite orb_true_iff, !existsb_exists.
  set (text := strip (lower command)).
  assert (∀ k, In k SENSITIVE_COMMAND_KEYWORDS ∧ contains text k = true
               ↔ k ∈ SENSITIVE_COMMAND_KEYWORDS ∧ occurs_in k (lower command)) as HK.
  { intros k. rewrite list_elem_of_In, contains_spec. split.
    - intros [Hk H]. split; [done|].
      apply (occurs_in_strip k (lower command)); [|done].
      by apply keywords_solid, list_elem_of_In.
    - intros [Hk H]. split; [done|].
      apply (occurs_in_strip k (lower command)); [|done].
      by apply keywords_solid, list_elem_of_In. }
  assert (∀ p, In p DANGEROUS_PATTERNS ∧ re_search p text = true
               ↔ p ∈ DANGEROUS_PATTERNS ∧ found p (lower command)) as HP.
  { intros p. rewrite list_elem_of_In, re_search_spec. split.
    - intros [Hp H]. split; [done|].
      destruct (patterns_solid p) as [? ?]; [by apply list_elem_of_In|].
      by apply (found_strip p (lower command)).
    - intros [Hp H]. split; [done|].
      destruct (patterns_solid p) as [? ?]; [by apply list_elem_of_In|].
      by apply (found_strip p (lower command)). }
  split.
  - intros [(k & H) | (p & H)]; [left; exists k | right; exists p]; [by apply HK | by apply HP].
  - intros [(k & H) | (p & H)]; [left; exists k | right; exists p]; [by apply HK | by apply HP].
Qed.

(** C1.  A command is classified SENSITIVE exactly when its lower-cased
    text contains one of the configured keywords as a substring or one of
    the configured dangerous patterns matches in it, and SAFE exactly
    when neither is the case. *)
Theorem classify_sensitive_iff_flagged (command : str) :
  (is_sensitive_command command = true ↔ flagged command)
  ∧ (classify command = SENSITIVE ↔ flagged command)
  ∧ (classify command = SAFE ↔ ¬ flagged command).
Proof.
  pose proof (is_sensitive_command_flagged command) as H.
  unfold classify. destruct (is_sensitive_command command).
  - split; [done|]. split; [tauto|]. split; [done|]. intros N. destruct N. by apply H.
  - split; [done|]. split.
    + split; [done|]. intros F. apply H in F. done.
    + split; [|done]. intros _ F. apply H in F. done.
Qed.

(** C9.  The command [echo performance] is classified sensitive, and
    the only reason is the keyword [rm], which occurs inside the word
    [performance]: no other keyword occurs and no dangerous pattern
    matches. *)
Theorem echo_performance_is_sensitive :
  let command := L "echo performance" in
  is_sensitive_command command = true
  ∧ classify command = SENSITIVE
  ∧ lower command = L "echo perfo" ++ L "rm" ++ L "ance"
  ∧ List.filter (contains (strip (lower command))) SENSITIVE_COMMAND_KEYWORDS = [L "rm"]
  ∧ List.filter (λ p, re_search p (strip (lower command))) DANGEROUS_PATTERNS = [].
Proof. by vm_compute. Qed.


(** ** The console *)

Section ConsoleFacts.

Implicit Types (con : console) (p : printed).

Lemma renders_true con p : renders con p = true ↔ markup_error con p = None.
Proof. unfold renders. by destruct (markup_error con p). Qed.

Lemma renders_false con p :
  renders con p = false ↔ ∃ msg, markup_error con p = Some msg.
Proof.
  unfold renders. destruct (markup_error con p); split; try done; eauto.
  by intros [? ?].
Qed.

Lemma say_renders con p : renders con p = true → say con p = Returns tt.
Proof. unfold renders, say. by destruct (markup_error con p). Qed.

Lemma say_refused con p msg :
  markup_error con p = Some msg → say con p = Raises (MarkupError msg).
Proof. unfold say. by intros ->. Qed.

Lemma MarkupError_is_Exception msg : is_Exception (MarkupError msg) = true.
Proof. done. Qed.

End ConsoleFacts.

(** ** The executor *)

Ltac unfold_M :=
  unfold mbind, M_bind, mret, M_ret, bind, ret, raise, try_except,
    emit, extern, list_append, read_list, new_list, console_print in *.

Ltac unfold_exec :=
  unfold CommandExecutor.execute_command, CommandExecutor.record_and_run,
    CommandExecutor.run_guarded, CommandExecutor.display_command,
    CommandExecutor.show_result in *;
  unfold_M.

Section ExecutorFacts.

Import CommandExecutor.

Implicit Types (con : console) (self : CommandExecutor.t) (env : exec_env)
  (command : str) (w : world).

Lemma launched_app tr1 tr2 : launched (tr1 ++ tr2) = launched tr1 ++ launched tr2.
Proof. apply omap_app. Qed.

Lemma prompts_app tr1 tr2 : prompts (tr1 ++ tr2) = prompts tr1 ++ prompts tr2.
Proof. apply List.filter_app. Qed.

(** The store after an append to the executor's list. *)
Lemma deref_appended w tr l x :
  is_Some (heap w !! l) →
  deref (World (alter (λ v, v ++ [x]) l (heap w)) tr) l = deref w l ++ [x].
Proof.
  intros [v Hv]. unfold deref; simpl. by rewrite lookup_alter_eq, Hv.
Qed.

Lemma deref_appended_ne w tr l l' x :
  l ≠ l' → deref (World (alter (λ v, v ++ [x]) l (heap w)) tr) l' = deref w l'.
Proof. intros Hne. unfold deref; simpl. by rewrite lookup_alter_ne. Qed.

(** [show_result] prints what [output_of] names and leaves the world. *)
Lemma show_result_eq con r w :
  show_result con r w
  = (w, match output_of r with Some p => say con p | None => Returns tt end).
Proof.
  unfold show_result, output_of. unfold_M.
  destruct (returncode r =? 0)%Z; [by destruct (non_empty (stdout r))|].
  by destruct (non_empty (stderr r)).
Qed.

(** Lines 101-135 as one step: the command is appended, handed to
    [subprocess.run], and the outcome of the run is converted. *)
Lemma record_and_run_eq con self env command w :
  record_and_run con self env command w
  = (World (alter (λ v, v ++ [command]) (command_history self) (heap w))
           (trace w ++ [EvRun command COMMAND_TIMEOUT]),
     run_value con env).
Proof.
  unfold record_and_run, run_guarded, run_value, after_error.
  unfold mbind at 1, M_bind at 1, bind at 1, list_append, try_except.
  unfold mbind at 1, M_bind at 1, bind at 1, extern. simpl.
  destruct (subprocess_run env) as [r|e]; simpl.
  - unfold mbind at 1, M_bind at 1, bind at 1. rewrite show_result_eq.
    destruct (output_of r) as [p|]; [|done].
    unfold say. destruct (markup_error con p) as [msg|]; [|done]. simpl.
    unfold_M. unfold say.
    by destruct (markup_error con (PCross _)).
  - destruct (exn_cls e) eqn:Hc; simpl; try done;
      unfold is_Exception; rewrite Hc; simpl; try done;
      unfold_M; unfold say; by destruct (markup_error con (PCross _)).
Qed.

End ExecutorFacts.

Section CallFacts.

Import CommandExecutor.

Implicit Types (con : console) (self : CommandExecutor.t) (env : exec_env)
  (command : str) (w : world).

(** The whole call, by the panel and by the decision. *)
Lemma execute_command_eq con self env command auto w :
  execute_command con self env command auto w
  = match markup_error con (panel_of command auto) with
    | Some msg => (w, Raises (MarkupError msg))
    | None =>
        match executor_gate env command auto with
        | Returns USER_DENIED =>
            (World (heap w) (trace w ++ [EvPanel command true; EvConfirmAsk (Returns false)]),
             Returns (false, [], cancelled_text))
        | Raises e =>
            (World (heap w) (trace w ++ [EvPanel command true; EvConfirmAsk (Raises e)]),
             Raises e)
        | Returns _ =>
            record_and_run con self env command
              (World (heap w) (trace w ++ gate_events env command auto))
        end
    end.
Proof.
  unfold execute_command, display_command, panel_of, executor_gate, gate_events.
  destruct auto; simpl.
  - unfold mbind at 1 2, M_bind at 1 2, bind at 1 2, console_print, say.
    by destruct (markup_error con (PanelNormal command)).
  - destruct (is_sensitive_command command); simpl.
    + unfold mbind at 1 2, M_bind at 1 2, bind at 1 2, console_print, say.
      destruct (markup_error con (PanelSensitive command)); [done|]. simpl.
      destruct (confirm_ask env) as [[|]|e]; simpl; by rewrite <- ?app_assoc.
    + unfold mbind at 1 2, M_bind at 1 2, bind at 1 2, console_print, say.
      by destruct (markup_error con (PanelNormal command)).
Qed.

(** The decisions in terms of the inputs of the call. *)
Lemma executor_gate_denied env command auto :
  executor_gate env command auto = Returns USER_DENIED ↔
  auto = false ∧ is_sensitive_command command = true
  ∧ confirm_ask env = Returns false.
Proof.
  unfold executor_gate. destruct auto; [split; [done | by intros (? & _)]|].
  destruct (is_sensitive_command command); [|split; [done | by intros (_ & ? & _)]].
  destruct (confirm_ask env) as [[|]|e]; split; try done; by intros (_ & _ & ?).
Qed.

Lemma executor_gate_approved env command auto :
  approved (executor_gate env command auto) = true ↔
  auto = true ∨ is_sensitive_command command = false
  ∨ confirm_ask env = Returns true.
Proof.
  unfold executor_gate. destruct auto; [by split; auto|].
  destruct (is_sensitive_command command); [|by split; auto].
  destruct (confirm_ask env) as [[|]|e]; simpl; split; auto; try done;
    by intros [?|[?|?]].
Qed.

Lemma execute_command_unshown con self env command auto w msg :
  markup_error con (panel_of command auto) = Some msg →
  execute_command con self env command auto w = (w, Raises (MarkupError msg)).
Proof. intros H. by rewrite execute_command_eq, H. Qed.

Lemma execute_command_approved con self env command auto w :
  renders con (panel_of command auto) = true →
  approved (executor_gate env command auto) = true →
  execute_command con self env command auto w =
  (World (alter (λ v, v ++ [command]) (command_history self) (heap w))
         (trace w ++ gate_events env command auto ++ [EvRun command COMMAND_TIMEOUT]),
   run_value con env).
Proof.
  intros Hr Ha. apply renders_true in Hr. rewrite execute_command_eq, Hr.
  destruct (executor_gate env command auto) as [[| |]|e]; try done;
    rewrite record_and_run_eq; simpl; by rewrite <- app_assoc.
Qed.

Lemma execute_command_denied con self env command auto w :
  renders con (panel_of command auto) = true →
  executor_gate env command auto = Returns USER_DENIED →
  execute_command con self env command auto w =
  (World (heap w) (trace w ++ [EvPanel command true; EvConfirmAsk (Returns false)]),
   Returns (false, [], cancelled_text)).
Proof.
  intros Hr Hg. apply renders_true in Hr. by rewrite execute_command_eq, Hr, Hg.
Qed.

Lemma execute_command_prompt_raises con self env command auto w e :
  renders con (panel_of command auto) = true →
  executor_gate env command auto = Raises e →
  execute_command con self env command auto w =
  (World (heap w) (trace w ++ [EvPanel command true; EvConfirmAsk (Raises e)]),
   Raises e).
Proof.
  intros Hr Hg. apply renders_true in Hr. by rewrite execute_command_eq, Hr, Hg.
Qed.

Lemma gate_events_launch_nothing env command auto :
  launched (gate_events env command auto) = [].
Proof.
  unfold gate_events. destruct auto; [done|].
  by destruct (is_sensitive_command command).
Qed.

(** The world after a call: the command is recorded and launched exactly
    when the panel is shown and the decision is an approval. *)
Lemma execute_command_world con self env command auto w :
  let w' := (execute_command con self env command auto w).1 in
  let recorded := renders con (panel_of command auto)
                  && approved (executor_gate env command auto) in
  heap w' = (if recorded
             then alter (λ v, v ++ [command]) (command_history self) (heap w)
             else heap w)
  ∧ launched (trace w') = launched (trace w) ++ (if recorded then [command] else []).
Proof.
  simpl. rewrite execute_command_eq. unfold renders.
  destruct (markup_error con (panel_of command auto)) as [msg|]; simpl.
  { by rewrite app_nil_r. }
  destruct (executor_gate env command auto) as [[| |]|e]; simpl;
    rewrite ?record_and_run_eq; simpl;
    rewrite ?launched_app, ?gate_events_launch_nothing; simpl;
    by rewrite ?app_nil_r.
Qed.

Lemma execute_command_live con self env command auto w :
  live self w → live self (execute_command con self env command auto w).1.
Proof.
  unfold live. intros Hl.
  destruct (execute_command_world con self env command auto w) as [-> _].
  destruct (_ && _); [by apply lookup_alter_is_Some | done].
Qed.

(** One call: the history grows by the command exactly when the call is
    recorded; no other list object changes. *)
Lemma execute_command_deref con self env command auto w l :
  live self w →
  deref (execute_command con self env command auto w).1 l =
  if decide (l = command_history self)
  then deref w l
       ++ (if renders con (panel_of command auto)
              && approved (executor_gate env command auto)
           then [command] else [])
  else deref w l.
Proof.
  intros Hl.
  destruct (execute_command_world con self env command auto w) as [E _].
  unfold deref at 1. rewrite E.
  destruct (_ && _).
  - case_decide as Hd.
    + subst l. by apply (deref_appended w (trace w)).
    + apply (deref_appended_ne w (trace w)). congruence.
  - case_decide; [by rewrite app_nil_r | done].
Qed.

End CallFacts.

(** ** The approval decision of the loop *)

Section DispatchFacts.

Import CommandExecutor Main.

Implicit Types (con : console) (ex : CommandExecutor.t) (env : turn_env) (w : world).

Lemma get_confirmation_eq reply w :
  get_confirmation reply w =
  (World (heap w) (trace w ++ [EvConfirm reply]),
   match reply with
   | Returns b => Returns b
   | Raises e => if is_interrupt e then Returns false else Raises e
   end).
Proof.
  unfold get_confirmation. unfold_M. destruct reply as [b|e]; simpl; [done|].
  by destruct (is_interrupt e).
Qed.

Lemma dispatch_denied con ex env command needs w :
  main_gate env needs = Returns USER_DENIED →
  dispatch con ex env command needs w =
  (World (heap w) (trace w ++ [EvConfirm (confirm env)]), Returns tt).
Proof.
  unfold main_gate, dispatch. destruct needs; [|done].
  unfold mbind, M_bind, bind. rewrite get_confirmation_eq.
  destruct (confirm env) as [[|]|e]; simpl; try done.
  by destruct (is_interrupt e).
Qed.

Lemma dispatch_gate_raises con ex env command needs w e :
  main_gate env needs = Raises e →
  dispatch con ex env command needs w =
  (World (heap w) (trace w ++ [EvConfirm (confirm env)]), Raises e).
Proof.
  unfold main_gate, dispatch. destruct needs; [|done].
  unfold mbind, M_bind, bind. rewrite get_confirmation_eq.
  destruct (confirm env) as [[|]|e']; simpl; try done.
  destruct (is_interrupt e'); [done|]. by intros [= ->].
Qed.

(** When the loop approves, what follows is the call of the executor
    with [auto_approve=True]. *)
Lemma bind_ret_world {A} (m : M A) (w : world) :
  ((m;; mret tt) w).1 = (m w).1.
Proof. unfold mbind, M_bind, bind. by destruct (m w) as [? [?|?]]. Qed.

Lemma dispatch_approved con ex env command needs w :
  approved (main_gate env needs) = true →
  (dispatch con ex env command needs w).1 =
  (execute_command con ex (exec env) command true
     (World (heap w) (trace w ++ (if needs then [EvConfirm (confirm env)] else [])))).1.
Proof.
  unfold main_gate, dispatch. destruct needs.
  - unfold mbind at 1, M_bind at 1, bind at 1. rewrite get_confirmation_eq.
    destruct (confirm env) as [[|]|e]; cbn -[execute_command]; try done.
    + intros _. apply bind_ret_world.
    + by destruct (is_interrupt e).
  - intros _. rewrite bind_ret_world, app_nil_r. by destruct w.
Qed.

(** Lines 187-200 in full: what is added to the trace and to the store. *)
Lemma dispatch_world con ex env command needs w :
  let w' := (dispatch con ex env command needs w).1 in
  let go := approved (main_gate env needs) && renders con (PanelNormal command) in
  trace w' = trace w ++ (if needs then [EvConfirm (confirm env)] else [])
                     ++ (if go then [EvPanel command false; EvRun command COMMAND_TIMEOUT]
                         else [])
  ∧ heap w' = (if go then alter (λ v, v ++ [command]) (command_history ex) (heap w)
               else heap w).
Proof.
  simpl. destruct (approved (main_gate env needs)) eqn:Ha; simpl.
  - rewrite (dispatch_approved _ _ _ _ _ _ Ha), execute_command_eq.
    change (panel_of command true) with (PanelNormal command). unfold renders.
    destruct (markup_error con (PanelNormal command)); simpl.
    + by rewrite app_nil_r.
    + rewrite record_and_run_eq. simpl. by rewrite <- !app_assoc.
  - assert (needs = true) as ->.
    { unfold main_gate in Ha. by destruct needs. }
    rewrite app_nil_r.
    destruct (main_gate env true) as [[| |]|e] eqn:Hg; try done.
    + by rewrite (dispatch_denied _ _ _ _ _ _ Hg).
    + by rewrite (dispatch_gate_raises _ _ _ _ _ _ _ Hg).
Qed.

Lemma handle_response_world con ex env ai needs w :
  (handle_response con ex env ai needs w).1
  = if is_answer ai then w
    else if renders con (PSuggested ai) then (dispatch con ex env ai needs w).1
    else w.
Proof.
  unfold handle_response, is_answer.
  destruct (startswith ai (L "QUESTION:")); [done|].
  destruct (str_eqb ai (L "UNKNOWN")); [done|].
  destruct (startswith ai (L "Error:")); [done|]. simpl.
  unfold mbind, M_bind, bind, console_print, say, renders.
  by destruct (markup_error con (PSuggested ai)).
Qed.

End DispatchFacts.

(** ** Denial, approval and the history *)

(** C3, on the code.  A call of [execute_command], and a turn of the
    loop, whose decision is USER_DENIED leaves the store (hence the
    history) as it was and launches nothing.  An approved command is
    appended to the history once and launched, whatever the subprocess
    then does, only if its panel can be printed: when rich refuses the
    panel (as for [echo [/x]]), the call raises before line 101, and the
    approved command is neither recorded nor launched. *)
Theorem approved_recorded_once_only_if_shown
    (con : console) (self : CommandExecutor.t) (env : exec_env) (tenv : turn_env)
    (command : str) (auto_approve needs_approval : bool) (w : world) :
  live self w →
  let h := CommandExecutor.command_history self in
  let rx := CommandExecutor.execute_command con self env command auto_approve w in
  let wm := (Main.dispatch con self tenv command needs_approval w).1 in
  (executor_gate env command auto_approve = Returns USER_DENIED →
     heap rx.1 = heap w ∧ launched (trace rx.1) = launched (trace w))
  ∧ (approved (executor_gate env command auto_approve) = true →
     match markup_error con (panel_of command auto_approve) with
     | None =>
         deref rx.1 h = deref w h ++ [command]
         ∧ launched (trace rx.1) = launched (trace w) ++ [command]
     | Some msg => rx = (w, Raises (MarkupError msg))
     end)
  ∧ (main_gate tenv needs_approval = Returns USER_DENIED →
     heap wm = heap w ∧ launched (trace wm) = launched (trace w))
  ∧ (approved (main_gate tenv needs_approval) = true →
     match markup_error con (PanelNormal command) with
     | None =>
         deref wm h = deref w h ++ [command]
         ∧ launched (trace wm) = launched (trace w) ++ [command]
     | Some _ => heap wm = heap w ∧ launched (trace wm) = launched (trace w)
     end).
Proof.
  intros Hl h rx wm. split; [|split; [|split]].
  - intros Hd.
    destruct (execute_command_world con self env command auto_approve w) as [Eh Et].
    subst rx. rewrite Eh, Et, Hd. simpl. rewrite andb_false_r. by rewrite app_nil_r.
  - intros Ha.
    destruct (markup_error con (panel_of command auto_approve)) as [msg|] eqn:Hm.
    + subst rx. by apply execute_command_unshown.
    + destruct (execute_command_world con self env command auto_approve w) as [Eh Et].
      unfold renders in Eh, Et. rewrite Hm, Ha in Eh, Et. simpl in Eh, Et.
      split; [|exact Et]. unfold deref at 1. subst rx. rewrite Eh.
      by apply (deref_appended w (trace w)).
  - intros Hd. subst wm. rewrite (dispatch_denied _ _ _ _ _ _ Hd). simpl.
    by rewrite launched_app, app_nil_r.
  - intros Ha.
    destruct (dispatch_world con self tenv command needs_approval w) as [Et Eh].
    rewrite Ha in Et, Eh. unfold renders in Et, Eh. fold wm in Et, Eh.
    destruct (markup_error con (PanelNormal command)) as [msg|]; simpl in Et, Eh.
    + rewrite Eh, Et, !launched_app. split; [done|].
      destruct needs_approval; simpl; by rewrite !app_nil_r.
    + split.
      * unfold deref at 1. rewrite Eh. by apply (deref_appended w (trace w)).
      * rewrite Et, !launched_app. destruct needs_approval; simpl; by rewrite ?app_nil_r.
Qed.

Lemma approved_recorded_once_only_if_shown_witness :
  live Sample.ex0 Sample.w0
  ∧ approved (executor_gate (ExecEnv (Returns true) Sample.done_ok) (L "echo [/x]") true) = true
  ∧ CommandExecutor.execute_command Sample.rich Sample.ex0
      (ExecEnv (Returns true) Sample.done_ok) (L "echo [/x]") true Sample.w0
    = (Sample.w0,
       Raises (MarkupError (L "closing tag in 'echo [/x]' doesn't match any open tag")))
  ∧ deref (CommandExecutor.execute_command Sample.rich Sample.ex0
             (ExecEnv (Returns true) Sample.timed_out) (L "rm a.txt") false Sample.w0).1 0
    = [L "rm a.txt"].
Proof.
  assert (live Sample.ex0 Sample.w0) as Hl by (by eexists).
  split; [exact Hl|]. split; [reflexivity|]. split.
  - destruct (approved_recorded_once_only_if_shown Sample.rich Sample.ex0
                (ExecEnv (Returns true) Sample.done_ok)
                (Sample.turn "x" "ls" true Sample.done_ok)
                (L "echo [/x]") true false Sample.w0 Hl) as (_ & H & _).
    exact (H eq_refl).
  - destruct (approved_recorded_once_only_if_shown Sample.rich Sample.ex0
                (ExecEnv (Returns true) Sample.timed_out)
                (Sample.turn "x" "ls" true Sample.done_ok)
                (L "rm a.txt") false false Sample.w0 Hl) as (_ & H & _).
    destruct (H eq_refl) as [H' _]. exact H'.
Defined.

(** ** The result tuple *)

(** C6, on the code.  When an approved command's subprocess runs to
    completion, the call returns the tuple (exit code = 0, stdout,
    stderr) if the output that line 120 or 124 prints is rendered, or if
    nothing is printed.  When rich refuses that output, the [MarkupError]
    is taken by the handler of line 132: the call returns the failure
    tuple with the handler's message, or raises if the handler's own line
    is refused as well. *)
Theorem completed_run_result
    (con : console) (self : CommandExecutor.t) (env : exec_env) (command : str)
    (auto_approve : bool) (w : world) (r : completed) :
  renders con (panel_of command auto_approve) = true →
  approved (executor_gate env command auto_approve) = true →
  subprocess_run env = Returns r →
  (CommandExecutor.execute_command con self env command auto_approve w).2
  = match output_of r with
    | None => Returns ((returncode r =? 0)%Z, stdout r, stderr r)
    | Some p =>
        match markup_error con p with
        | None => Returns ((returncode r =? 0)%Z, stdout r, stderr r)
        | Some msg =>
            let text := CommandExecutor.error_text (MarkupError msg) in
            match markup_error con (PCross text) with
            | None => Returns (false, [], text)
            | Some msg' => Raises (MarkupError msg')
            end
        end
    end.
Proof.
  intros Hr Ha Hc. rewrite (execute_command_approved _ _ _ _ _ _ Hr Ha). simpl.
  unfold run_value. rewrite Hc. destruct (output_of r) as [p|]; [|done].
  destruct (markup_error con p) as [msg|]; [|done].
  unfold after_error, say. simpl.
  by destruct (markup_error con (PCross _)).
Qed.

Lemma completed_run_result_witness :
  renders Sample.rich (panel_of (L "printf '\133/x]'") true) = true
  ∧ (CommandExecutor.execute_command Sample.rich Sample.ex0
       (ExecEnv (Returns true) (Returns (Completed 0 (L "[/x]") [])))
       (L "printf '\133/x]'") true Sample.w0).2
    = Raises (MarkupError
                (L "closing tag in 'Error occurred while executing command: closing tag in '[/x]' doesn't match any open tag' doesn't match any open tag"))
  ∧ (CommandExecutor.execute_command Sample.rich Sample.ex0
       (ExecEnv (Returns true) Sample.done_failed) (L "ls /nowhere") false Sample.w0).2
    = Returns (false, L "out", L "err").
Proof.
  split; [reflexivity|]. split.
  - rewrite (completed_run_result Sample.rich Sample.ex0
               (ExecEnv (Returns true) (Returns (Completed 0 (L "[/x]") [])))
               (L "printf '\133/x]'") true Sample.w0 (Completed 0 (L "[/x]") []));
      reflexivity.
  - rewrite (completed_run_result Sample.rich Sample.ex0
               (ExecEnv (Returns true) Sample.done_failed)
               (L "ls /nowhere") false Sample.w0 (Completed 1 (L "out") (L "err")));
      reflexivity.
Defined.

(** C5, as the code has it.  For an approved command whose panel is
    shown: a completed run whose output is printed gives the completed
    tuple; a timeout gives the flag false with the message that names the
    configured limit of 30 seconds; any other [Exception] of the run gives
    the flag false with a message that carries the error's own text, once
    that message is printed; a [KeyboardInterrupt], which is no
    [Exception], passes both handlers and leaves the call. *)
Theorem execute_command_returns_on_failure
    (con : console) (self : CommandExecutor.t) (env : exec_env) (command : str)
    (auto_approve : bool) (w : world) :
  renders con (panel_of command auto_approve) = true →
  approved (executor_gate env command auto_approve) = true →
  let res := (CommandExecutor.execute_command con self env command auto_approve w).2 in
  match subprocess_run env with
  | Returns r =>
      renders_all con (output_of r) = true →
      res = Returns ((returncode r =? 0)%Z, stdout r, stderr r)
  | Raises e =>
      match exn_cls e with
      | TimeoutExpired =>
          res = Returns (false, [], L "Command execution timeout (exceeded 30 seconds)")
      | KeyboardInterrupt => res = Raises e
      | _ =>
          renders con (PCross (L "Error occurred while executing command: " ++ exn_text e))
          = true →
          res = Returns (false, [], L "Error occurred while executing command: " ++ exn_text e)
      end
  end.
Proof.
  intros Hr Ha. cbv zeta. rewrite (execute_command_approved _ _ _ _ _ _ Hr Ha).
  cbn [snd]. unfold run_value. destruct (subprocess_run env) as [r|e].
  - unfold renders_all, renders. destruct (output_of r) as [p|]; [|done].
    by destruct (markup_error con p).
  - unfold is_Exception, after_error.
    change (L "Error occurred while executing command: " ++ exn_text e)
      with (CommandExecutor.error_text e).
    destruct (exn_cls e); try done; intros Hp; by rewrite (say_renders _ _ Hp).
Qed.

Lemma execute_command_returns_on_failure_witness :
  renders Sample.rich (panel_of (L "sleep 60") true) = true
  ∧ approved (executor_gate (ExecEnv (Returns false) Sample.timed_out) (L "sleep 60") true) = true
  ∧ (CommandExecutor.execute_command Sample.rich Sample.ex0
       (ExecEnv (Returns false) Sample.timed_out) (L "sleep 60") true Sample.w0).2
    = Returns (false, [], L "Command execution timeout (exceeded 30 seconds)").
Proof.
  split; [reflexivity|]. split; [reflexivity|].
  exact (execute_command_returns_on_failure Sample.rich Sample.ex0
           (ExecEnv (Returns false) Sample.timed_out) (L "sleep 60") true Sample.w0
           eq_refl eq_refl).
Defined.

(** C5 as stated fails: the command [sleep 60] is approved and shown,
    the user interrupts the run, and the [KeyboardInterrupt] leaves
    [execute_command]. *)
Lemma interrupt_during_run_propagates :
  approved (executor_gate (ExecEnv (Returns true) (Raises Sample.interrupt))
              (L "sleep 60") true) = true
  ∧ CommandExecutor.execute_command Sample.rich Sample.ex0
      (ExecEnv (Returns true) (Raises Sample.interrupt)) (L "sleep 60") true Sample.w0
    = (World {[ 0 := [L "sleep 60"] ]}
         [EvPanel (L "sleep 60") false; EvRun (L "sleep 60") COMMAND_TIMEOUT],
       Raises Sample.interrupt).
Proof. split; [reflexivity | by vm_compute]. Qed.

(** C10.  When the user answers no to the prompt for a locally
    classified sensitive command, whose red panel has been shown, the
    call returns exactly [(False, "", "User cancelled command execution")].
    A failed run of an approved command, whose panel has been shown and
    whose error line is printed, returns a tuple with the same first two
    fields and another text in the third; and whenever a failed run
    returns a tuple at all, it is of that kind. *)
Theorem denial_result_tuple
    (con : console) (self : CommandExecutor.t) (env : exec_env) (command : str)
    (w : world) :
  renders con (PanelSensitive command) = true →
  is_sensitive_command command = true →
  confirm_ask env = Returns false →
  (CommandExecutor.execute_command con self env command false w).2
  = Returns (false, [], L "User cancelled command execution")
  ∧ (∀ con' env' command' auto' w' e,
       approved (executor_gate env' command' auto') = true →
       subprocess_run env' = Raises e → is_Exception e = true →
       renders con' (panel_of command' auto') = true →
       exn_cls e = TimeoutExpired
       ∨ renders con' (PCross (CommandExecutor.error_text e)) = true →
       ∃ text,
         (CommandExecutor.execute_command con' self env' command' auto' w').2
         = Returns (false, [], text)
         ∧ text ≠ L "User cancelled command execution")
  ∧ (∀ con' env' command' auto' w' e res,
       approved (executor_gate env' command' auto') = true →
       subprocess_run env' = Raises e → is_Exception e = true →
       (CommandExecutor.execute_command con' self env' command' auto' w').2 = Returns res →
       ∃ text, res = (false, [], text) ∧ text ≠ L "User cancelled command execution").
Proof.
  intros Hp Hs Hc. split; [|split].
  - rewrite (execute_command_denied con self env command false w); [done| |].
    + unfold panel_of. by rewrite Hs.
    + unfold executor_gate. by rewrite Hs, Hc.
  - intros con' env' command' auto' w' e Ha Hr He Hpanel Hline.
    rewrite (execute_command_approved _ _ _ _ _ _ Hpanel Ha). cbn [snd].
    unfold run_value. rewrite Hr, He. unfold after_error.
    destruct (decide (exn_cls e = TimeoutExpired)) as [Ht|Ht].
    + rewrite Ht. by exists CommandExecutor.timeout_text.
    + destruct Hline as [?|Hline]; [done|]. rewrite (say_renders _ _ Hline).
      exists (CommandExecutor.error_text e). by destruct (exn_cls e).
  - intros con' env' command' auto' w' e res Ha Hr He.
    rewrite execute_command_eq.
    destruct (markup_error con' (panel_of command' auto')); [done|].
    assert (∀ w0, (CommandExecutor.record_and_run con' self env' command' w0).2
                  = Returns res →
                  ∃ text, res = (false, [], text)
                          ∧ text ≠ L "User cancelled command execution") as Hrun.
    { intros w0. rewrite record_and_run_eq. simpl. unfold run_value. rewrite Hr, He.
      unfold after_error, say.
      destruct (exn_cls e); try (destruct (markup_error con' (PCross _)); [done|]);
        simpl; intros [= <-]; by eexists. }
    destruct (executor_gate env' command' auto') as [[| |]|?]; try done; apply Hrun.
Qed.

Lemma denial_result_tuple_witness :
  renders Sample.rich (PanelSensitive (L "rm a.txt")) = true
  ∧ is_sensitive_command (L "rm a.txt") = true
  ∧ (CommandExecutor.execute_command Sample.rich Sample.ex0
       (ExecEnv (Returns false) Sample.done_ok) (L "rm a.txt") false Sample.w0).2
    = Returns (false, [], L "User cancelled command execution").
Proof.
  split; [reflexivity|]. split; [by vm_compute|].
  apply (denial_result_tuple Sample.rich Sample.ex0 (ExecEnv (Returns false) Sample.done_ok)
           (L "rm a.txt") Sample.w0); by vm_compute.
Defined.

(** ** Interrupts at the two prompts *)

(** C4, on the code.  At the prompt of the loop ([get_confirmation]) an
    interrupt or end of input is turned into the answer no.  At the prompt
    of [execute_command] ([Confirm.ask], which stands outside the [try]
    block) the same exception leaves the call: the command [rm test.txt],
    whose red panel has been shown, is neither recorded nor launched, but
    the call raises instead of returning the cancelled tuple. *)
Theorem local_prompt_interrupt_escapes
    (con : console) (self : CommandExecutor.t) (run : outcome completed) (w : world) :
  let command := L "rm test.txt" in
  renders con (PanelSensitive command) = true →
  is_sensitive_command command = true
  ∧ (Main.get_confirmation (Raises Sample.interrupt) w).2 = Returns false
  ∧ (Main.get_confirmation (Raises Sample.end_of_input) w).2 = Returns false
  ∧ CommandExecutor.execute_command con self (ExecEnv (Raises Sample.interrupt) run)
      command false w
    = (World (heap w)
         (trace w ++ [EvPanel command true; EvConfirmAsk (Raises Sample.interrupt)]),
       Raises Sample.interrupt)
  ∧ CommandExecutor.execute_command con self (ExecEnv (Raises Sample.end_of_input) run)
      command false w
    = (World (heap w)
         (trace w ++ [EvPanel command true; EvConfirmAsk (Raises Sample.end_of_input)]),
       Raises Sample.end_of_input).
Proof.
  intros command Hp.
  assert (is_sensitive_command command = true) as Hs by (by vm_compute).
  split; [exact Hs|]. split; [by rewrite get_confirmation_eq|].
  split; [by rewrite get_confirmation_eq|].
  split; apply execute_command_prompt_raises;
    unfold panel_of, executor_gate; by rewrite Hs.
Qed.

Lemma local_prompt_interrupt_escapes_witness :
  renders Sample.rich (PanelSensitive (L "rm test.txt")) = true
  ∧ (CommandExecutor.execute_command Sample.rich Sample.ex0
       (ExecEnv (Raises Sample.interrupt) Sample.done_ok) (L "rm test.txt") false Sample.w0).2
    = Raises Sample.interrupt.
Proof.
  split; [reflexivity|].
  destruct (local_prompt_interrupt_escapes Sample.rich Sample.ex0 Sample.done_ok Sample.w0
              eq_refl) as (_ & _ & _ & H & _).
  by rewrite H.
Defined.

(** ** The loop and the local classifier *)

(** C2, on the code.  When the translator's answer carries no marker,
    the loop hands the command to [execute_command] with
    [auto_approve=True]: the classifier is not consulted and no prompt is
    put; the blue panel is printed and, if rich renders it, the command is
    launched.  So [rm test.txt], which the classifier labels sensitive,
    runs without any confirmation. *)
Theorem unmarked_command_runs_unprompted
    (con : console) (ex : CommandExecutor.t) (env : turn_env) (command : str) (w : world) :
  let w' := (Main.dispatch con ex env command false w).1 in
  trace w' = trace w
             ++ (if renders con (PanelNormal command)
                 then [EvPanel command false; EvRun command COMMAND_TIMEOUT] else [])
  ∧ prompts (trace w') = prompts (trace w)
  ∧ launched (trace w')
    = launched (trace w) ++ (if renders con (PanelNormal command) then [command] else [])
  ∧ is_sensitive_command (L "rm test.txt") = true
  ∧ trace (Main.main Sample.rich true
             [Sample.turn "delete test.txt" "rm test.txt" false Sample.done_ok]
             Main.empty_world).1
    = [EvPanel (L "rm test.txt") false; EvRun (L "rm test.txt") COMMAND_TIMEOUT].
Proof.
  intros w'.
  destruct (dispatch_world con ex env command false w) as [E _]. fold w' in E.
  simpl in E. split; [exact E|]. rewrite E, prompts_app, launched_app.
  split; [|split; [|split; by vm_compute]];
    destruct (renders con (PanelNormal command)); simpl; by rewrite ?app_nil_r.
Qed.

(** ** The approval marker *)

Section MarkerFacts.

Implicit Types (s old new pre rest : str).

Lemma replace_from_skip old new pre rest :
  replace_from old new (length pre) (pre ++ rest) = replace_from old new 0 rest.
Proof. induction pre as [|c pre IH]; [done | exact IH]. Qed.

(** An occurrence at the very start is replaced and the scan resumes
    right after it. *)
Lemma replace_prefix old new rest :
  old ≠ [] → replace (old ++ rest) old new = new ++ replace rest old new.
Proof.
  destruct old as [|a old']; [done|]. intros _. unfold replace.
  change ((a :: old') ++ rest) with (a :: (old' ++ rest)).
  cbn [replace_from].
  assert (startswith (a :: old' ++ rest) (a :: old') = true) as ->.
  { apply startswith_spec. by exists rest. }
  f_equal. simpl. rewrite Nat.sub_0_r. apply replace_from_skip.
Qed.

Lemma replace_absent old new s :
  old ≠ [] → ¬ occurs_in old s → replace s old new = s.
Proof.
  destruct old as [|a old']; [done|]. intros _. unfold replace.
  induction s as [|c s IH]; intros Hno; [done|].
  cbn [replace_from].
  destruct (startswith (c :: s) (a :: old')) eqn:E.
  - destruct Hno. apply startswith_spec in E as [post E].
    exists [], post. by rewrite E.
  - f_equal. apply IH. intros (pre & post & E'). apply Hno.
    exists (c :: pre), post. by rewrite E'.
Qed.

End MarkerFacts.

Lemma chat_marker (con : console) (self : AIAgent.t) (env : api_env)
    (user_input ai_response : str) :
  AIAgent.api_configured self = true →
  AIAgent.request_outcome con
    (AIAgent.Make true (AIAgent.conversation_history self ++ [(AIAgent.User, user_input)]))
    env = Returns ai_response →
  (AIAgent.chat con self env user_input).2 = Returns (AIAgent.check_marker ai_response).
Proof.
  intros Hc Hr. unfold AIAgent.chat. rewrite Hc. simpl. rewrite Hr.
  by destruct (AIAgent.check_marker ai_response).
Qed.

(** C7, as the code has it.  The test is for the case-sensitive prefix
    [NEEDS_APPROVAL:] (a following space is not required).  When the
    answer starts with it, [needs_approval] is true, and the command is
    the rest of the answer with every further occurrence of the marker
    removed and the surrounding whitespace trimmed; that text, and no
    marker in front of it, is what [chat] returns, and whatever the loop
    then hands to the executor is that text.  When the answer does not
    start with it, [needs_approval] is false and the answer is returned
    unchanged. *)
Theorem marker_prefix_is_stripped (ai_response : str) :
  let command := (AIAgent.check_marker ai_response).1 in
  let needs_approval := (AIAgent.check_marker ai_response).2 in
  (needs_approval = true ↔ ∃ rest, ai_response = L "NEEDS_APPROVAL:" ++ rest)
  ∧ (∀ rest, ai_response = L "NEEDS_APPROVAL:" ++ rest →
       command = strip (replace rest (L "NEEDS_APPROVAL:") [])
       ∧ (¬ occurs_in (L "NEEDS_APPROVAL:") rest → command = strip rest))
  ∧ (needs_approval = false → command = ai_response)
  ∧ (∀ con self env user_input,
       AIAgent.api_configured self = true →
       AIAgent.request_outcome con
         (AIAgent.Make true
            (AIAgent.conversation_history self ++ [(AIAgent.User, user_input)]))
         env = Returns ai_response →
       (AIAgent.chat con self env user_input).2 = Returns (command, needs_approval))
  ∧ (∀ con ex tenv w,
       launched (trace (Main.dispatch con ex tenv command needs_approval w).1)
       = launched (trace w)
         ++ (if approved (main_gate tenv needs_approval) && renders con (PanelNormal command)
             then [command] else []))
  ∧ AIAgent.check_marker (L "NEEDS_APPROVAL: rm test.txt") = (L "rm test.txt", true)
  ∧ AIAgent.check_marker (L "needs_approval: rm test.txt")
    = (L "needs_approval: rm test.txt", false).
Proof.
  intros command needs_approval.
  assert (needs_approval = startswith ai_response AIAgent.MARKER) as Hn.
  { subst needs_approval. unfold AIAgent.check_marker.
    by destruct (startswith ai_response AIAgent.MARKER). }
  assert (AIAgent.MARKER ≠ []) as Hne by done.
  split; [|split; [|split; [|split; [|split]]]].
  - rewrite Hn. apply startswith_spec.
  - intros rest ->. subst command. unfold AIAgent.check_marker.
    change (L "NEEDS_APPROVAL:") with AIAgent.MARKER.
    assert (startswith (AIAgent.MARKER ++ rest) AIAgent.MARKER = true) as ->.
    { apply startswith_spec. by exists rest. }
    cbn [fst]. rewrite (replace_prefix AIAgent.MARKER [] rest Hne), app_nil_l.
    split; [done|]. intros Hno. by rewrite (replace_absent _ _ _ Hne Hno).
  - rewrite Hn. subst command. unfold AIAgent.check_marker. by intros ->.
  - intros con self env user_input Hc Hr.
    rewrite (chat_marker con self env user_input ai_response Hc Hr).
    subst command needs_approval. by destruct (AIAgent.check_marker ai_response).
  - intros con ex tenv w.
    destruct (dispatch_world con ex tenv command needs_approval w) as [-> _].
    rewrite !launched_app.
    destruct needs_approval, (_ && _); simpl; by rewrite ?app_nil_r.
  - by vm_compute.
Qed.

Lemma marker_prefix_is_stripped_witness :
  (AIAgent.check_marker (L "NEEDS_APPROVAL: rm test.txt")).1 = L "rm test.txt".
Proof.
  destruct (marker_prefix_is_stripped (L "NEEDS_APPROVAL: rm test.txt"))
    as (_ & H & _).
  destruct (H (L " rm test.txt") eq_refl) as [_ H'].
  rewrite H'; [reflexivity|].
  intros Ho. apply contains_spec in Ho. by vm_compute in Ho.
Defined.

(** C7 as stated fails: the answer [NEEDS_APPROVAL:ls] does not start
    with the marker followed by a space, and yet it is flagged, the
    marker is removed, and [ls] is the command. *)
Lemma marker_without_space_is_taken :
  startswith (L "NEEDS_APPROVAL:ls") (L "NEEDS_APPROVAL: ") = false
  ∧ AIAgent.check_marker (L "NEEDS_APPROVAL:ls") = (L "ls", true)
  ∧ ¬ (∀ ai_response,
         (AIAgent.check_marker ai_response).2 = true
         ↔ startswith ai_response (L "NEEDS_APPROVAL: ") = true).
Proof.
  split; [by vm_compute|]. split; [by vm_compute|].
  intros H. destruct (H (L "NEEDS_APPROVAL:ls")) as [H1 _].
  specialize (H1 eq_refl). by vm_compute in H1.
Qed.

(** ** The command history *)

Section HistoryFacts.

Import CommandExecutor.

Implicit Types (con : console) (self : CommandExecutor.t) (w : world)
  (invs : list invocation).

Lemma init_live w :
  ∃ self w', init w = (w', Returns self) ∧ live self w'
             ∧ deref w' (command_history self) = []
             ∧ heap w !! command_history self = None.
Proof.
  unfold init. unfold_M. simpl. eexists _, _. split; [reflexivity|].
  unfold live, deref. simpl. rewrite lookup_insert_eq.
  split; [by eexists|]. split; [done|].
  apply not_elem_of_dom, is_fresh.
Qed.

Lemma run_all_live con self invs w :
  live self w → live self (run_all con self invs w).
Proof.
  revert w. induction invs as [|i invs IH]; intros w Hl; [done|].
  simpl. by apply IH, execute_command_live.
Qed.

(** A series of calls: the history grows by the commands of the calls
    that were recorded, in the order of the calls. *)
Lemma run_all_history con self invs w :
  live self w →
  deref (run_all con self invs w) (command_history self) =
  deref w (command_history self)
    ++ map inv_command (List.filter (inv_recorded con) invs).
Proof.
  revert w. induction invs as [|i invs IH]; intros w Hl; simpl.
  - by rewrite app_nil_r.
  - rewrite IH by by apply execute_command_live.
    rewrite execute_command_deref by done. rewrite decide_True by done.
    unfold inv_recorded at 2, inv_approved.
    destruct (_ && _); simpl.
    + by rewrite <- app_assoc.
    + by rewrite app_nil_r.
Qed.

Lemma filter_all {A} (f : A → bool) (l : list A) :
  forallb f l = true → List.filter f l = l.
Proof.
  induction l as [|x l IH]; simpl; [done|].
  rewrite andb_true_iff. intros [-> H]. by rewrite IH.
Qed.

(** [get_command_history] makes a new list object with the same entries. *)
Lemma get_command_history_copy self w :
  live self w →
  ∃ c w', get_command_history self w = (w', Returns c)
          ∧ c ≠ command_history self
          ∧ heap w !! c = None
          ∧ heap w' = <[c := deref w (command_history self)]> (heap w)
          ∧ trace w' = trace w.
Proof.
  intros Hl. unfold get_command_history. unfold_M. simpl.
  eexists _, _. split; [reflexivity|].
  match goal with
  | |- ?c ≠ _ ∧ _ =>
      assert (heap w !! c = None) as Hf by apply not_elem_of_dom, is_fresh
  end.
  split; [|done]. intros E. unfold live in Hl. rewrite <- E, Hf in Hl.
  by destruct Hl.
Qed.

End HistoryFacts.

(** C8, as the code has it.  After a series of calls on a new executor,
    [get_command_history] returns a new list object, distinct from the
    executor's own, that holds in the order of the calls the commands of
    the calls that were approved and whose panel was shown (all N of them
    when that is so for all N calls).  The two lists are independent:
    appending to the copy leaves the executor's history as it was, and a
    later call leaves the copy as it was.  The [clear] command of the loop
    empties the conversation history of the agent and changes nothing in
    the store, so the command history stays. *)
Theorem command_history_copy_in_order
    (con : console) (self : CommandExecutor.t) (invs : list invocation) (w : world) :
  live self w →
  deref w (CommandExecutor.command_history self) = [] →
  let h := CommandExecutor.command_history self in
  let w1 := run_all con self invs w in
  ∃ c w2,
    CommandExecutor.get_command_history self w1 = (w2, Returns c)
    ∧ c ≠ h ∧ heap w1 !! c = None
    ∧ deref w2 c = map inv_command (List.filter (inv_recorded con) invs)
    ∧ deref w2 h = deref w2 c
    ∧ (forallb (inv_recorded con) invs = true →
         deref w2 c = map inv_command invs ∧ length (deref w2 c) = length invs)
    ∧ (∀ x, deref (list_append c x w2).1 h = deref w2 h)
    ∧ (∀ env command auto,
         deref (CommandExecutor.execute_command con self env command auto w2).1 c
         = deref w2 c)
    ∧ (∀ agent, AIAgent.get_history (AIAgent.clear_history agent) = [])
    ∧ (∀ s env, pt_prompt env = Returns (L "clear") →
         Main.main_step con s env w2
         = (w2, Returns (Main.Session (AIAgent.clear_history (Main.ai_agent s))
                                      (Main.executor s), Main.Continue))).
Proof.
  intros Hl Hempty h w1.
  assert (live self w1) as Hl1 by by apply run_all_live.
  assert (deref w1 h = map inv_command (List.filter (inv_recorded con) invs)) as Hh.
  { subst w1 h. by rewrite run_all_history, Hempty. }
  destruct (get_command_history_copy self w1 Hl1) as (c & w2 & Hg & Hne & Hfresh & Hheap & Htr).
  assert (live self w2) as Hl2.
  { unfold live. rewrite Hheap, lookup_insert_ne by done. exact Hl1. }
  assert (deref w2 c = deref w1 h) as Hc.
  { unfold deref at 1. by rewrite Hheap, lookup_insert_eq. }
  assert (deref w2 h = deref w1 h) as Hh2.
  { unfold deref at 1. rewrite Hheap, lookup_insert_ne by done. done. }
  exists c, w2. split; [done|]. split; [done|]. split; [done|].
  split; [by rewrite Hc|]. split; [by rewrite Hh2, Hc|].
  split; [|split; [|split; [|split]]].
  - intros Hall. rewrite Hc, Hh, (filter_all _ _ Hall). by rewrite length_map.
  - intros x. unfold list_append. simpl. by apply deref_appended_ne.
  - intros env command auto. rewrite execute_command_deref by done.
    by rewrite decide_False.
  - done.
  - intros s env Hp. unfold Main.main_step, Main.turn_body, Main.get_user_input.
    rewrite Hp. by destruct w2.
Qed.

Lemma command_history_copy_in_order_witness :
  live Sample.ex0 Sample.w0
  ∧ deref Sample.w0 0 = []
  ∧ ∃ c w2,
      CommandExecutor.get_command_history Sample.ex0
        (run_all Sample.rich Sample.ex0
           [Invocation (ExecEnv (Returns true) Sample.done_ok) (L "ls") true;
            Invocation (ExecEnv (Returns false) Sample.done_ok) (L "rm a") false;
            Invocation (ExecEnv (Returns true) Sample.timed_out) (L "pwd") false]
           Sample.w0)
      = (w2, Returns c)
      ∧ deref w2 c = [L "ls"; L "pwd"].
Proof.
  assert (live Sample.ex0 Sample.w0) as Hl by (by eexists).
  split; [exact Hl|]. split; [reflexivity|].
  destruct (command_history_copy_in_order Sample.rich Sample.ex0
              [Invocation (ExecEnv (Returns true) Sample.done_ok) (L "ls") true;
               Invocation (ExecEnv (Returns false) Sample.done_ok) (L "rm a") false;
               Invocation (ExecEnv (Returns true) Sample.timed_out) (L "pwd") false]
              Sample.w0 Hl eq_refl) as (c & w2 & Hg & _ & _ & Hc & _).
  exists c, w2. split; [exact Hg|]. rewrite Hc. by vm_compute.
Defined.

(** C8 as stated fails for [clear]: after [ls] has run, the [clear]
    command followed by the [history] command still lists [ls]. *)
Lemma clear_keeps_command_history :
  trace (Main.main Sample.rich true
           [Sample.turn "list files" "ls" false Sample.done_ok;
            Sample.turn "clear" "" false Sample.done_ok;
            Sample.turn "history" "" false Sample.done_ok]
           Main.empty_world).1
  = [EvPanel (L "ls") false; EvRun (L "ls") COMMAND_TIMEOUT; EvListed [L "ls"]].
Proof. by vm_compute. Qed.

(** The sample session is the one [CommandExecutor.init] creates. *)
Lemma sample_session_is_initial :
  CommandExecutor.init Main.empty_world = (Sample.w0, Returns Sample.ex0).
Proof. by vm_compute. Qed.

(** ** The loop, turn by turn *)

Section TurnFacts.

Import CommandExecutor Main.

Implicit Types (con : console) (ex : CommandExecutor.t) (env : turn_env)
  (w : world) (s : session).

Lemma in_step_refl ex w : live ex w → in_step ex w w.
Proof. intros Hl. split; [done|]. exists []. by rewrite !app_nil_r. Qed.

Lemma in_step_trans ex w1 w2 w3 :
  in_step ex w1 w2 → in_step ex w2 w3 → in_step ex w1 w3.
Proof.
  intros [_ (n1 & H1 & T1)] [Hl (n2 & H2 & T2)]. split; [done|].
  exists (n1 ++ n2). by rewrite H2, H1, T2, T1, !app_assoc.
Qed.

Lemma dispatch_in_step con ex env command needs w :
  live ex w → in_step ex w (dispatch con ex env command needs w).1.
Proof.
  intros Hl. destruct (dispatch_world con ex env command needs w) as [Et Eh].
  split.
  - unfold live. rewrite Eh. destruct (_ && _); [by apply lookup_alter_is_Some|done].
  - exists (if approved (main_gate env needs) && renders con (PanelNormal command)
            then [command] else []).
    unfold deref at 1. rewrite Eh, Et, !launched_app.
    destruct (_ && _).
    + split; [by apply (deref_appended w (trace w))|].
      destruct needs; simpl; by rewrite ?app_nil_r.
    + fold (deref w (command_history ex)).
      destruct needs; simpl; by rewrite ?app_nil_r.
Qed.

Lemma handle_response_in_step con ex env ai needs w :
  live ex w → in_step ex w (handle_response con ex env ai needs w).1.
Proof.
  intros Hl. rewrite handle_response_world.
  destruct (is_answer ai); [by apply in_step_refl|].
  destruct (renders con (PSuggested ai)); [|by apply in_step_refl].
  by apply dispatch_in_step.
Qed.

Lemma get_command_history_in_step ex w :
  live ex w →
  ∃ c w', get_command_history ex w = (w', Returns c) ∧ in_step ex w w'
          ∧ trace w' = trace w
          ∧ deref w' c = deref w (command_history ex).
Proof.
  intros Hl.
  destruct (get_command_history_copy ex w Hl) as (c & w' & E & Hne & _ & Hh & Ht).
  exists c, w'. split; [done|]. split; [split|].
  - unfold live. by rewrite Hh, lookup_insert_ne.
  - exists []. unfold deref. rewrite Hh, Ht, lookup_insert_ne by done.
    by rewrite !app_nil_r.
  - split; [done|]. unfold deref at 1. by rewrite Hh, lookup_insert_eq.
Qed.

Lemma print_lines_world con i v w : (print_lines con i v w).1 = w.
Proof.
  revert i. induction v as [|cmd v IH]; intros i; [done|].
  cbn [print_lines]. unfold mbind, M_bind, bind, console_print.
  destruct (say con (PHistoryLine i cmd)); [apply IH | done].
Qed.

(** The [history] command: a copy is made; the listing is recorded when
    every line was printed. *)
Lemma show_history_world con ex w :
  live ex w →
  ∃ wl, in_step ex w wl ∧ trace wl = trace w
        ∧ ((show_history con ex w).1 = wl
           ∨ (show_history con ex w).1
             = World (heap wl) (trace wl ++ [EvListed (deref w (command_history ex))])).
Proof.
  intros Hl.
  destruct (get_command_history_in_step ex w Hl) as (c & wl & E & Hstep & Ht & Hc).
  exists wl. split; [done|]. split; [done|].
  assert (show_history con ex w
          = match print_lines con 1 (deref wl c) wl with
            | (w', Returns _) => emit (EvListed (deref wl c)) w'
            | (w', Raises e) => (w', Raises e)
            end) as ->.
  { unfold show_history. unfold mbind, M_bind, bind, read_list. by rewrite E. }
  pose proof (print_lines_world con 1 (deref wl c) wl) as Hp.
  destruct (print_lines con 1 (deref wl c) wl) as [w' [[]|e]]; simpl in Hp; subst w'.
  - right. unfold emit. simpl. by rewrite Hc.
  - by left.
Qed.

Lemma on_exception_eq con env s e w :
  ∃ r, on_exception con env s e w = (w, r)
       ∧ ∀ s' c, r = Returns (s', c) → s' = s.
Proof.
  unfold on_exception.
  destruct (exn_cls e); try by (eexists; split; [done|]; by intros s' c [= <- _]).
  all: unfold mbind, M_bind, bind, console_print;
    destruct (say con (PLoopError _)); [|by eexists];
    destruct (DEBUG env); [destruct (say con (PTraceback e))|];
    eexists; (split; [done|]); try done; by intros s' c [= <- _].
Qed.

Lemma chat_keeps_configuration con (a : AIAgent.t) (env : api_env) (line : str) :
  AIAgent.api_configured (AIAgent.chat con a env line).1 = AIAgent.api_configured a.
Proof.
  unfold AIAgent.chat. destruct (AIAgent.api_configured a) eqn:E; simpl; [|done].
  destruct (AIAgent.request_outcome con _ env) as [r|e]; simpl; [|done].
  by destruct (AIAgent.check_marker r).
Qed.

Lemma attempt_then s (m : M unit) (c : control) w :
  attempt s (m;; mret c) w
  = ((m w).1, (s, match (m w).2 with
                  | Returns _ => Returns c
                  | Raises e => Raises e
                  end)).
Proof.
  unfold attempt, mbind, M_bind, bind. by destruct (m w) as [w' [[]|e]].
Qed.

(** The three things the [try] block of a turn can do to the world:
    nothing, the [history] command, or the handling of an answer. *)
Lemma turn_body_cases con s env w :
  live (executor s) w →
  ∃ w' s' r,
    turn_body con s env w = (w', (s', r))
    ∧ executor s' = executor s
    ∧ AIAgent.api_configured (ai_agent s') = AIAgent.api_configured (ai_agent s)
    ∧ (w' = w
       ∨ (∃ wl, in_step (executor s) w wl ∧ trace wl = trace w
                ∧ (w' = wl
                   ∨ w' = World (heap wl)
                            (trace wl ++ [EvListed (deref w (command_history (executor s)))])))
       ∨ (∃ line ai needs,
            (AIAgent.chat con (ai_agent s) (api env) line).2 = Returns (ai, needs)
            ∧ w' = (handle_response con (executor s) env ai needs w).1)).
Proof.
  intros Hl. unfold turn_body, get_user_input.
  destruct (pt_prompt env) as [line|e]; simpl.
  2:{ destruct (is_interrupt e); simpl; eexists _, _, _; (split; [done|]);
        (split; [done|]); (split; [done|]); by left. }
  repeat (case_match;
          [eexists _, _, _; (split; [done|]); (split; [done|]); (split; [done|]); by left|]).
  case_match.
  { destruct (show_history_world con (executor s) w Hl) as (wl & Hstep & Ht & Hw).
    rewrite attempt_then.
    eexists _, _, _. split; [done|]. split; [done|]. split; [done|].
    right; left. by exists wl. }
  case_match.
  { eexists _, _, _. split; [done|]. split; [done|]. split; [done|]. by left. }
  pose proof (chat_keeps_configuration con (ai_agent s) (api env) (strip line)) as Hcfg.
  destruct (AIAgent.chat con (ai_agent s) (api env) (strip line)) as [agent answer] eqn:Hchat.
  simpl in Hcfg. destruct answer as [[ai needs]|e].
  - rewrite attempt_then.
    eexists _, _, _. split; [done|]. split; [done|]. split; [done|].
    right; right. exists (strip line), ai, needs. by rewrite Hchat.
  - eexists _, _, _. split; [done|]. split; [done|]. split; [done|]. by left.
Qed.

(** The same for the whole turn: the handlers leave the world alone. *)
Lemma main_step_cases con s env w :
  live (executor s) w →
  ∃ w' r,
    main_step con s env w = (w', r)
    ∧ (∀ s' c, r = Returns (s', c) →
         executor s' = executor s
         ∧ AIAgent.api_configured (ai_agent s') = AIAgent.api_configured (ai_agent s))
    ∧ (w' = w
       ∨ (∃ wl, in_step (executor s) w wl ∧ trace wl = trace w
                ∧ (w' = wl
                   ∨ w' = World (heap wl)
                            (trace wl ++ [EvListed (deref w (command_history (executor s)))])))
       ∨ (∃ line ai needs,
            (AIAgent.chat con (ai_agent s) (api env) line).2 = Returns (ai, needs)
            ∧ w' = (handle_response con (executor s) env ai needs w).1)).
Proof.
  intros Hl.
  destruct (turn_body_cases con s env w Hl) as (w' & s' & r & E & Hx & Hc & Hcases).
  unfold main_step. rewrite E. destruct r as [c|e].
  - eexists _, _. split; [done|]. split; [|done]. by intros s'' c'' [= <- _].
  - destruct (on_exception_eq con env s' e w') as (r & -> & Hr).
    eexists _, _. split; [done|]. split; [|done].
    intros s'' c'' Hret. by rewrite (Hr _ _ Hret).
Qed.

(** A turn keeps the executor's list alive and keeps history and
    launches in step, however it ends. *)
Lemma main_step_in_step con s env w :
  live (executor s) w → in_step (executor s) w (main_step con s env w).1.
Proof.
  intros Hl.
  destruct (main_step_cases con s env w Hl) as (w' & r & -> & _ & Hc). simpl.
  destruct Hc as [->|[(wl & Hstep & Ht & [->| ->])|(line & ai & needs & _ & ->)]].
  - by apply in_step_refl.
  - done.
  - eapply in_step_trans; [exact Hstep|]. destruct Hstep as [Hl' _].
    split; [done|]. exists []. unfold deref. simpl.
    by rewrite launched_app, !app_nil_r.
  - by apply handle_response_in_step.
Qed.

(** What a turn adds to the trace. *)
Lemma main_step_trace con s env w :
  live (executor s) w →
  let w' := (main_step con s env w).1 in
  trace w' = trace w
  ∨ trace w' = trace w ++ [EvListed (deref w (command_history (executor s)))]
  ∨ ∃ new, trace w' = trace w ++ new
           ∧ Forall (λ ev, dispatch_event ev = true) new.
Proof.
  intros Hl. simpl.
  destruct (main_step_cases con s env w Hl) as (w' & r & -> & _ & Hc). simpl.
  destruct Hc as [->|[(wl & Hstep & Ht & [->| ->])|(line & ai & needs & _ & ->)]].
  - by left.
  - by left.
  - right; left. simpl. by rewrite Ht.
  - rewrite handle_response_world. destruct (is_answer ai); [by left|].
    destruct (renders con (PSuggested ai)); [|by left].
    right; right.
    destruct (dispatch_world con (executor s) env ai needs w) as [-> _].
    eexists. split; [done|]. apply Forall_app. split.
    + destruct needs; by repeat constructor.
    + destruct (_ && _); by repeat constructor.
Qed.

(** An invariant of the turns holds when the loop ends, whether it
    returns or raises. *)
Lemma main_loop_invariant con (I : session → world → Prop) (J : world → Prop) :
  (∀ s env w, I s w →
     match main_step con s env w with
     | (w', Returns (s', _)) => I s' w'
     | (w', Raises _) => J w'
     end) →
  ∀ envs s w, I s w →
    match main_loop con s envs w with
    | (w', Returns s') => I s' w'
    | (w', Raises _) => J w'
    end.
Proof.
  intros Hstep. induction envs as [|env envs IH]; intros s w Hi; [done|].
  specialize (Hstep s env w Hi). cbn [main_loop].
  unfold mbind, M_bind, bind.
  destruct (main_step con s env w) as [w1 [[s1 c]|e]]; [|done].
  destruct c; [by apply IH | done].
Qed.

Lemma on_exception_ends con env s e w :
  returns_or_refused con (on_exception con env s e w).2.
Proof.
  unfold on_exception.
  destruct (exn_cls e); try by (left; eexists).
  all: unfold mbind, M_bind, bind, console_print, say;
    destruct (markup_error con (PLoopError _)) as [msg|] eqn:E1;
      [right; exists e, msg; by split; [left|]|];
    destruct (DEBUG env); [|by left; eexists];
    destruct (markup_error con (PTraceback e)) as [msg|] eqn:E2;
      [right; exists e, msg; by split; [right|] | by left; eexists].
Qed.

Lemma main_step_ends con s env w :
  returns_or_refused con (main_step con s env w).2.
Proof.
  unfold main_step.
  destruct (turn_body con s env w) as [w1 [s1 [c|e]]]; [by left; eexists|].
  apply on_exception_ends.
Qed.

(** The loop ends by returning or by a refused print of its handler. *)
Lemma main_loop_ends con envs s w :
  returns_or_refused con (main_loop con s envs w).2.
Proof.
  revert s w. induction envs as [|env envs IH]; intros s w; [by left; eexists|].
  cbn [main_loop]. unfold mbind, M_bind, bind.
  pose proof (main_step_ends con s env w) as Hs.
  destruct (main_step con s env w) as [w1 [[s1 c]|e]].
  - destruct c; [apply IH | by left; eexists].
  - destruct Hs as [(a & Ha)|(e0 & msg & Hm & He)]; [done|].
    right. exists e0, msg. split; [done|]. simpl in *. congruence.
Qed.

Lemma main_ends con configured envs :
  returns_or_refused con (main con configured envs empty_world).2.
Proof.
  unfold main. unfold mbind, M_bind, bind. rewrite sample_session_is_initial.
  apply main_loop_ends.
Qed.

Lemma launched_dispatch_events new :
  Forall (λ ev, dispatch_event ev = true) new → ∀ es, EvListed es ∉ new.
Proof.
  intros H es Hin. rewrite Forall_forall in H. by specialize (H _ Hin).
Qed.

Lemma listings_faithful_app tr new :
  listings_faithful tr → (∀ es, EvListed es ∉ new) → listings_faithful (tr ++ new).
Proof.
  intros Hf Hno tr1 es tr2 E.
  apply app_eq_app in E as [l [[E1 E2]|[E1 E2]]].
  - destruct l as [|x l]; simpl in E2.
    + destruct (Hno es). rewrite <- E2. by left.
    + injection E2 as <- E2. by apply (Hf tr1 es l).
  - destruct (Hno es). rewrite E2. apply elem_of_app. right. by left.
Qed.

Lemma listings_faithful_listing tr :
  listings_faithful tr → listings_faithful (tr ++ [EvListed (launched tr)]).
Proof.
  intros Hf tr1 es tr2 E.
  apply app_eq_app in E as [l [[E1 E2]|[E1 E2]]].
  - destruct l as [|x l]; simpl in E2.
    + injection E2 as -> _. by rewrite E1, app_nil_r.
    + injection E2 as <- E2. by apply (Hf tr1 es l).
  - destruct l as [|x l]; simpl in E2.
    + injection E2 as <- _. by rewrite E1, app_nil_r.
    + injection E2 as _ E2. by destruct l.
Qed.

(** In every session, however it ends, the executor is the one made at
    the start and its history is the list of the commands launched. *)
Lemma session_history_is_launched con configured envs :
  let r := main con configured envs empty_world in
  live Sample.ex0 r.1
  ∧ deref r.1 (command_history Sample.ex0) = launched (trace r.1)
  ∧ ∀ s, r.2 = Returns s → executor s = Sample.ex0.
Proof.
  simpl. unfold main. unfold mbind, M_bind, bind. rewrite sample_session_is_initial.
  pose proof (main_loop_invariant con
           (λ s w, executor s = Sample.ex0 ∧ live Sample.ex0 w
                   ∧ deref w (command_history Sample.ex0) = launched (trace w))
           (λ w, live Sample.ex0 w
                 ∧ deref w (command_history Sample.ex0) = launched (trace w))) as Hinv.
  lapply Hinv; clear Hinv.
  - intros Hinv.
    specialize (Hinv envs (Session (AIAgent.init configured) Sample.ex0) Sample.w0).
    lapply Hinv; clear Hinv.
    + destruct (main_loop con _ envs Sample.w0) as [w' [s'|e]]; simpl.
      * intros (Hx & Hl & Hh). split; [done|]. split; [done|]. by intros s [= <-].
      * intros (Hl & Hh). split; [done|]. split; [done|]. by intros s.
    + split; [done|]. split; [by eexists | done].
  - intros s env w (Hx & Hl & Hh). rewrite <- Hx in Hl.
    pose proof (main_step_in_step con s env w Hl) as (Hl' & new & Hd & Ht).
    destruct (main_step_cases con s env w Hl) as (w1 & r & E & Hr & _).
    rewrite E in *. cbn [fst] in *. rewrite Hx in *.
    assert (deref w1 (command_history Sample.ex0) = launched (trace w1)) as Hw'
      by by rewrite Hd, Ht, Hh.
    destruct r as [[s1 c]|e]; [|done].
    destruct (Hr s1 c eq_refl) as [Hs' _]. by rewrite Hs'.
Qed.

(** The same for any invariant of the turns of a session. *)
Lemma session_invariant con configured envs
    (I : session → world → Prop) (J : world → Prop) :
  I (Session (AIAgent.init configured) Sample.ex0) Sample.w0 →
  (∀ s w, I s w → J w) →
  (∀ s env w,
     executor s = Sample.ex0 → live Sample.ex0 w →
     deref w (command_history Sample.ex0) = launched (trace w) →
     I s w →
     match main_step con s env w with
     | (w', Returns (s', _)) => I s' w'
     | (w', Raises _) => J w'
     end) →
  J (main con configured envs empty_world).1.
Proof.
  intros Hinit HJ Hstep.
  unfold main. unfold mbind, M_bind, bind. rewrite sample_session_is_initial.
  pose proof (main_loop_invariant con
           (λ s w, (executor s = Sample.ex0 ∧ live Sample.ex0 w
                    ∧ deref w (command_history Sample.ex0) = launched (trace w))
                   ∧ I s w)
           J) as Hinv.
  lapply Hinv; clear Hinv.
  - intros Hinv.
    specialize (Hinv envs (Session (AIAgent.init configured) Sample.ex0) Sample.w0).
    lapply Hinv; clear Hinv.
    + destruct (main_loop con _ envs Sample.w0) as [w' [s'|e]]; simpl; [|done].
      intros [_ Hi]. by apply (HJ s').
    + split; [|done]. split; [done|]. split; [by eexists | done].
  - intros s env w [(Hx & Hl & Hh) Hi].
    specialize (Hstep s env w Hx Hl Hh Hi). rewrite <- Hx in Hl.
    pose proof (main_step_in_step con s env w Hl) as (Hl' & new & Hd & Ht).
    destruct (main_step_cases con s env w Hl) as (w1 & r & E & Hr & _).
    rewrite E in *. cbn [fst] in *. rewrite Hx in *.
    destruct r as [[s1 c]|e]; [|done].
    destruct (Hr s1 c eq_refl) as [Hs' _].
    split; [|done]. split; [by rewrite Hs'|]. split; [done|].
    by rewrite Hd, Ht, Hh.
Qed.

End TurnFacts.

(** ** Checks of the character classes *)

Lemma lower_char_examples :
  lower (L "Rm -RF /Tmp [X]") = L "rm -rf /tmp [x]"
  ∧ map (λ n, code (lower_char (ascii_of_nat n))) [64; 65; 90; 91; 192; 215; 222; 223]
    = [64; 97; 122; 91; 224; 215; 254; 223].
Proof. by vm_compute. Qed.

Lemma isspace_examples :
  map (λ n, isspace (ascii_of_nat n)) [8; 9; 13; 14; 27; 28; 32; 33; 133; 160]
  = [false; true; true; false; false; true; true; false; true; true].
Proof. by vm_compute. Qed.

(** * Further properties *)

(** ** The classifier *)

Section ClassifierMore.

Implicit Types (s k m pre post command : str) (r : regex).

Lemma matches_lits k m : matches (lits k) m ↔ m = k.
Proof.
  revert m. induction k as [|c k IH]; intros m; [apply matches_eps|].
  destruct k as [|c' k'].
  - apply matches_chr.
  - change (lits (c :: c' :: k')) with (Cat (Chr c) (lits (c' :: k'))).
    rewrite matches_cat. split.
    + intros (s1 & s2 & -> & H1 & H2). apply matches_chr in H1 as ->.
      apply IH in H2 as ->. done.
    + intros ->. exists [c], (c' :: k'). split; [done|].
      split; [apply matches_chr | apply IH]; done.
Qed.

(** A pattern that opens with a literal is only found where the literal
    occurs. *)
Lemma found_literal_head r1 r2 k s :
  (∀ m, matches r1 m → m = k) → found (Cat r1 r2) s → occurs_in k s.
Proof.
  intros Hk (pre & m & post & -> & H). apply matches_cat in H as (m1 & m2 & -> & H1 & _).
  apply Hk in H1 as ->. exists pre, (m2 ++ post). by rewrite <- app_assoc.
Qed.

Lemma pattern_needs_keyword pattern s :
  pattern ∈ DANGEROUS_PATTERNS → found pattern s →
  ∃ keyword, keyword ∈ SENSITIVE_COMMAND_KEYWORDS ∧ occurs_in keyword s.
Proof.
  unfold DANGEROUS_PATTERNS. intros Hp Hf.
  repeat (apply elem_of_cons in Hp as [->|Hp]).
  - exists (L "rm"). split; [by apply list_elem_of_In; vm_compute; auto|].
    eapply found_literal_head; [|exact Hf]. intros m. by rewrite matches_lits.
  - exists (L "rm"). split; [by apply list_elem_of_In; vm_compute; auto|].
    eapply found_literal_head; [|exact Hf]. intros m. by rewrite matches_lits.
  - exists (L ">"). split; [apply list_elem_of_In; vm_compute; tauto|].
    eapply found_literal_head; [|exact Hf]. intros m. by rewrite matches_chr.
  - exists (L "sudo"). split; [apply list_elem_of_In; vm_compute; tauto|].
    eapply found_literal_head; [|exact Hf]. intros m. by rewrite matches_lits.
  - by apply elem_of_nil in Hp.
Qed.

Lemma occurs_in_wider k s pre post :
  occurs_in k s → occurs_in k (pre ++ s ++ post).
Proof.
  intros (a & b & ->). exists (pre ++ a), (b ++ post). by rewrite <- !app_assoc.
Qed.

Lemma found_wider r s pre post : found r s → found r (pre ++ s ++ post).
Proof.
  intros (a & m & b & -> & H). exists (pre ++ a), m, (b ++ post).
  split; [by rewrite <- !app_assoc | done].
Qed.

Lemma flagged_wider command pre post :
  flagged command → flagged (pre ++ command ++ post).
Proof.
  unfold flagged, lower. rewrite !map_app.
  intros [(k & Hk & H) | (p & Hp & H)]; [left; exists k | right; exists p];
    (split; [done|]); [by apply occurs_in_wider | by apply found_wider].
Qed.

Lemma lower_char_idem c : lower_char (lower_char c) = lower_char c.
Proof. destruct c as [[] [] [] [] [] [] [] []]; reflexivity. Qed.

Lemma isspace_lower_char c : isspace (lower_char c) = isspace c.
Proof. destruct c as [[] [] [] [] [] [] [] []]; reflexivity. Qed.

Lemma lower_idem s : lower (lower s) = lower s.
Proof.
  unfold lower. rewrite map_map. apply map_ext. intros c. apply lower_char_idem.
Qed.

Lemma lstrip_lower s : lstrip (lower s) = lower (lstrip s).
Proof.
  induction s as [|c s IH]; [done|]. simpl. rewrite isspace_lower_char.
  by destruct (isspace c).
Qed.

Lemma lower_rev s : lower (rev s) = rev (lower s).
Proof. apply map_rev. Qed.

Lemma strip_lower s : strip (lower s) = lower (strip s).
Proof.
  unfold strip, rstrip. by rewrite lstrip_lower, <- lower_rev, lstrip_lower, lower_rev.
Qed.

Lemma lstrip_keeps_last s c :
  isspace c = false → lstrip (s ++ [c]) = lstrip s ++ [c].
Proof.
  intros Hc. induction s as [|a s IH]; simpl; [by rewrite Hc|].
  by destruct (isspace a).
Qed.

Lemma lstrip_shape s : lstrip s = [] ∨ solid_head (lstrip s) = true.
Proof.
  induction s as [|c s IH]; [by left|]. simpl.
  destruct (isspace c) eqn:E; [done|]. right. simpl. by rewrite E.
Qed.

Lemma lstrip_solid s : solid_head s = true → lstrip s = s.
Proof. destruct s as [|c s]; [done|]. simpl. by destruct (isspace c). Qed.

(** [strip] returns the empty string or a string that is solid at both
    ends. *)
Lemma strip_shape s : strip s = [] ∨ solid (strip s) = true.
Proof.
  unfold strip, rstrip. destruct (lstrip_shape s) as [->|Hh]; [by left|].
  destruct (lstrip s) as [|a t]; [done|]. simpl in Hh.
  apply negb_true_iff in Hh. right.
  simpl rev. rewrite (lstrip_keeps_last _ _ Hh), rev_app_distr. simpl.
  unfold solid. simpl. rewrite Hh. simpl.
  rewrite rev_involutive, <- (lstrip_keeps_last _ _ Hh).
  destruct (lstrip_shape (rev t ++ [a])) as [E|E]; [|done].
  rewrite (lstrip_keeps_last _ _ Hh) in E. by destruct (lstrip (rev t)).
Qed.

Lemma strip_idem s : strip (strip s) = strip s.
Proof.
  destruct (strip_shape s) as [->|H]; [done|].
  unfold solid in H. apply andb_true_iff in H as [H1 H2].
  unfold strip at 1, rstrip. rewrite (lstrip_solid _ H1), (lstrip_solid _ H2).
  apply rev_involutive.
Qed.

End ClassifierMore.

(** X1.  The dangerous patterns never decide: each of them opens with a
    literal that is itself a keyword ([rm], [>], [sudo]), so a command is
    sensitive exactly when a keyword occurs in it. *)
Theorem patterns_add_nothing (command : str) :
  is_sensitive_command command
  = existsb (contains (strip (lower command))) SENSITIVE_COMMAND_KEYWORDS
  ∧ (flagged command ↔
     ∃ keyword, keyword ∈ SENSITIVE_COMMAND_KEYWORDS
                ∧ occurs_in keyword (lower command)).
Proof.
  split.
  - unfold is_sensitive_command.
    destruct (existsb (λ p, re_search p (strip (lower command))) DANGEROUS_PATTERNS) eqn:E;
      [|by rewrite orb_false_r].
    rewrite orb_true_r. symmetry.
    apply existsb_exists in E as (p & Hp & Hs).
    apply list_elem_of_In in Hp. apply re_search_spec in Hs.
    destruct (pattern_needs_keyword p _ Hp Hs) as (k & Hk & Ho).
    apply existsb_exists. exists k. split; [by apply list_elem_of_In|].
    by apply contains_spec.
  - unfold flagged. split; [|by left].
    intros [H | (p & Hp & Hf)]; [done|]. by eapply pattern_needs_keyword.
Qed.

(** X2.  Sensitivity cannot be hidden by surrounding text: if a command
    is sensitive, so is every command that contains it. *)
Theorem sensitive_inside_is_sensitive (command pre post : str) :
  is_sensitive_command command = true →
  is_sensitive_command (pre ++ command ++ post) = true.
Proof.
  rewrite !is_sensitive_command_flagged. apply flagged_wider.
Qed.

Lemma sensitive_inside_is_sensitive_witness :
  is_sensitive_command (L "rm -rf build") = true
  ∧ is_sensitive_command (L "cd /tmp && " ++ L "rm -rf build" ++ L " ; ls") = true.
Proof.
  assert (is_sensitive_command (L "rm -rf build") = true) as H by (by vm_compute).
  split; [exact H|].
  exact (sensitive_inside_is_sensitive (L "rm -rf build") (L "cd /tmp && ") (L " ; ls") H).
Defined.

(** X3.  The classification ignores letter case and surrounding
    whitespace: a command, its lower-cased form and its stripped form are
    classified alike. *)
Theorem classification_ignores_case_and_padding (command : str) :
  is_sensitive_command (lower command) = is_sensitive_command command
  ∧ is_sensitive_command (strip command) = is_sensitive_command command
  ∧ ∀ other, strip (lower other) = strip (lower command) →
             is_sensitive_command other = is_sensitive_command command.
Proof.
  split; [|split].
  - unfold is_sensitive_command. by rewrite lower_idem.
  - unfold is_sensitive_command. by rewrite <- strip_lower, strip_idem.
  - intros other H. unfold is_sensitive_command. by rewrite H.
Qed.


(** ** The executor, call by call *)

(** X4.  One call shows at most one panel, puts at most one prompt and
    launches at most one command.  When rich renders the panel, it is
    the first new event, red exactly when [auto_approve] is false and the
    command is locally sensitive, the prompt appears in exactly that
    case, and the command is launched exactly when the call is approved.
    When rich refuses the panel, the call raises the [MarkupError] and
    nothing else happens. *)
Theorem call_panel_prompt_launch
    (con : console) (self : CommandExecutor.t) (env : exec_env) (command : str)
    (auto_approve : bool) (w : world) :
  let asked := negb auto_approve && is_sensitive_command command in
  let call := CommandExecutor.execute_command con self env command auto_approve w in
  match markup_error con (panel_of command auto_approve) with
  | None =>
      ∃ new,
        trace call.1 = trace w ++ EvPanel command asked :: new
        ∧ prompts new = (if asked then [EvConfirmAsk (confirm_ask env)] else [])
        ∧ launched new
          = (if approved (executor_gate env command auto_approve) then [command] else [])
        ∧ (∀ c s, EvPanel c s ∉ new)
  | Some msg => call = (w, Raises (MarkupError msg))
  end.
Proof.
  simpl. rewrite execute_command_eq.
  destruct (markup_error con (panel_of command auto_approve)) as [msg|]; [done|].
  unfold executor_gate, gate_events.
  destruct auto_approve; simpl.
  - rewrite record_and_run_eq. simpl. rewrite <- app_assoc.
    exists [EvRun command COMMAND_TIMEOUT]. repeat split; try done.
    intros c s H. by apply list_elem_of_singleton in H.
  - destruct (is_sensitive_command command); simpl.
    + destruct (confirm_ask env) as [[|]|e]; simpl.
      * rewrite record_and_run_eq. simpl. rewrite <- app_assoc.
        exists [EvConfirmAsk (Returns true); EvRun command COMMAND_TIMEOUT].
        repeat split; try done. intros c s H.
        repeat (apply elem_of_cons in H as [H|H]; [done|]). by apply elem_of_nil in H.
      * exists [EvConfirmAsk (Returns false)]. repeat split; try done.
        intros c s H. by apply list_elem_of_singleton in H.
      * exists [EvConfirmAsk (Raises e)]. repeat split; try done.
        intros c s H. by apply list_elem_of_singleton in H.
    + rewrite record_and_run_eq. simpl. rewrite <- app_assoc.
      exists [EvRun command COMMAND_TIMEOUT]. repeat split; try done.
      intros c s H. by apply list_elem_of_singleton in H.
Qed.

(** X5.  A call creates no list object and changes none but the
    executor's own history. *)
Theorem call_touches_only_the_history
    (con : console) (self : CommandExecutor.t) (env : exec_env) (command : str)
    (auto_approve : bool) (w : world) :
  let w' := (CommandExecutor.execute_command con self env command auto_approve w).1 in
  dom (heap w') = dom (heap w)
  ∧ ∀ l, l ≠ CommandExecutor.command_history self → heap w' !! l = heap w !! l.
Proof.
  simpl.
  destruct (execute_command_world con self env command auto_approve w) as [-> _].
  destruct (_ && _); [|done].
  split; [apply dom_alter_L|]. intros l Hl. by apply lookup_alter_ne.
Qed.

(** X6.  When the run of an approved command, whose panel was shown, is
    cut by a signal outside the [Exception] hierarchy (a
    [KeyboardInterrupt]), the call raises it; the command is by then in
    the history and counted as launched. *)
Theorem interrupted_run_is_recorded
    (con : console) (self : CommandExecutor.t) (env : exec_env) (command : str)
    (auto_approve : bool) (w : world) (e : exn) :
  live self w →
  renders con (panel_of command auto_approve) = true →
  approved (executor_gate env command auto_approve) = true →
  subprocess_run env = Raises e → is_Exception e = false →
  let r := CommandExecutor.execute_command con self env command auto_approve w in
  r.2 = Raises e
  ∧ deref r.1 (CommandExecutor.command_history self)
    = deref w (CommandExecutor.command_history self) ++ [command]
  ∧ launched (trace r.1) = launched (trace w) ++ [command].
Proof.
  intros Hl Hp Ha Hr He. simpl. split.
  - rewrite (execute_command_approved _ _ _ _ _ _ Hp Ha). simpl.
    unfold run_value. rewrite Hr, He.
    destruct (exn_cls e) eqn:Hc; try done.
    all: by (unfold is_Exception in He; rewrite Hc in He).
  - rewrite (execute_command_deref con self env command auto_approve w _ Hl).
    destruct (execute_command_world con self env command auto_approve w) as [_ ->].
    rewrite Hp, Ha. simpl. by rewrite decide_True.
Qed.

Lemma interrupted_run_is_recorded_witness :
  live Sample.ex0 Sample.w0
  ∧ (CommandExecutor.execute_command Sample.rich Sample.ex0
       (ExecEnv (Returns true) (Raises Sample.interrupt)) (L "sleep 60") true Sample.w0).2
    = Raises Sample.interrupt
  ∧ deref (CommandExecutor.execute_command Sample.rich Sample.ex0
             (ExecEnv (Returns true) (Raises Sample.interrupt)) (L "sleep 60") true Sample.w0).1 0
    = [L "sleep 60"].
Proof.
  assert (live Sample.ex0 Sample.w0) as Hl by (by eexists).
  split; [exact Hl|].
  destruct (interrupted_run_is_recorded Sample.rich Sample.ex0
              (ExecEnv (Returns true) (Raises Sample.interrupt)) (L "sleep 60") true
              Sample.w0 Sample.interrupt Hl eq_refl eq_refl eq_refl eq_refl) as (H1 & H2 & _).
  split; [exact H1 | exact H2].
Defined.

(** ** Answers, special words and interrupts *)

(** X7.  An answer that starts with [QUESTION:] or [Error:], or is
    [UNKNOWN], is shown and not run: the turn puts no prompt and launches
    nothing, also when the answer came with the approval marker.  Any
    other answer is first printed as the suggested command; when rich
    renders that line, the answer is prompted for exactly when the marker
    was present, and launched exactly when the decision of the loop is an
    approval and rich renders the panel; when rich refuses the line,
    nothing is prompted or launched. *)
Theorem answers_are_shown_not_run
    (con : console) (ex : CommandExecutor.t) (env : turn_env) (ai_response : str)
    (needs_approval : bool) (w : world) :
  let w' := (Main.handle_response con ex env ai_response needs_approval w).1 in
  let suggested := negb (is_answer ai_response) && renders con (PSuggested ai_response) in
  (suggested = false → w' = w)
  ∧ launched (trace w')
    = launched (trace w)
      ++ (if suggested && approved (main_gate env needs_approval)
             && renders con (PanelNormal ai_response)
          then [ai_response] else [])
  ∧ prompts (trace w')
    = prompts (trace w)
      ++ (if suggested && needs_approval then [EvConfirm (confirm env)] else []).
Proof.
  simpl. rewrite handle_response_world.
  destruct (is_answer ai_response); simpl.
  { by rewrite !app_nil_r. }
  destruct (renders con (PSuggested ai_response)); simpl.
  2:{ by rewrite !app_nil_r. }
  split; [done|].
  destruct (dispatch_world con ex env ai_response needs_approval w) as [-> _].
  rewrite !launched_app, !prompts_app.
  destruct needs_approval, (approved (main_gate env _)),
    (renders con (PanelNormal ai_response)); simpl; by rewrite ?app_nil_r.
Qed.

Lemma str_eqb_true (a b : str) : Main.str_eqb a b = true ↔ a = b.
Proof. unfold Main.str_eqb. apply bool_decide_eq_true. Qed.

Lemma str_eqb_false (a b : str) : Main.str_eqb a b = false ↔ a ≠ b.
Proof. unfold Main.str_eqb. apply bool_decide_eq_false. Qed.

(** The [try] block of a turn for a line that is no special word. *)
Lemma turn_body_plain
    (con : console) (s : Main.session) (env : turn_env) (w : world) (line : str) :
  pt_prompt env = Returns line →
  strip line ≠ [] → lower (strip line) ∉ special_words →
  Main.turn_body con s env w =
  let '(agent, answer) := AIAgent.chat con (Main.ai_agent s) (api env) (strip line) in
  let s' := Main.Session agent (Main.executor s) in
  match answer with
  | Returns (ai_response, needs_approval) =>
      Main.attempt s'
        (Main.handle_response con (Main.executor s) env ai_response needs_approval;;
         mret Main.Continue) w
  | Raises e => (w, (s', Raises e))
  end.
Proof.
  intros Hp Hne Hsp. unfold Main.turn_body, Main.get_user_input. rewrite Hp.
  unfold special_words, exit_words in Hsp. simpl in Hsp. simpl.
  apply str_eqb_false in Hne. rewrite Hne.
  assert (∀ word, word ∈ [L "exit"; L "quit"; L "q"; L "help"; L "history"; L "clear"] →
                  Main.str_eqb (lower (strip line)) word = false) as Hw.
  { intros word Hin. apply str_eqb_false. intros E. apply Hsp. by rewrite E. }
  rewrite !Hw; [done| | | | | |]; apply list_elem_of_In; simpl; tauto.
Qed.

(** X8.  A line that is [exit], [quit] or [q] in any letter case and
    with any surrounding whitespace ends the session at once: nothing is
    changed and the turns that would follow are not run. *)
Theorem exit_word_ends_session
    (con : console) (s : Main.session) (env : turn_env) (rest : list turn_env)
    (w : world) (line : str) :
  pt_prompt env = Returns line →
  lower (strip line) ∈ exit_words →
  Main.main_loop con s (env :: rest) w = (w, Returns s).
Proof.
  intros Hp Hin. cbn [Main.main_loop].
  assert (Main.main_step con s env w = (w, Returns (s, Main.Break))) as E.
  { unfold Main.main_step, Main.turn_body, Main.get_user_input. rewrite Hp. simpl.
    assert (Main.str_eqb (strip line) [] = false) as ->.
    { apply str_eqb_false. intros E. rewrite E in Hin.
      unfold exit_words in Hin. simpl in Hin.
      repeat (apply elem_of_cons in Hin as [Hin|Hin]; [done|]).
      by apply elem_of_nil in Hin. }
    unfold exit_words in Hin.
    repeat (apply elem_of_cons in Hin as [->|Hin]); [done|done|done|].
    by apply elem_of_nil in Hin. }
  unfold mbind, M_bind, bind. by rewrite E.
Qed.

Lemma exit_word_ends_session_witness :
  lower (strip (L "  QuIt ")) ∈ exit_words
  ∧ trace (Main.main Sample.rich true
             [Sample.turn "  QuIt " "" false Sample.done_ok;
              Sample.turn "remove it" "rm -rf /" false Sample.done_ok]
             Main.empty_world).1 = [].
Proof.
  assert (lower (strip (L "  QuIt ")) ∈ exit_words) as Hin.
  { apply list_elem_of_In. vm_compute. tauto. }
  split; [exact Hin|].
  unfold Main.main. unfold mbind, M_bind, bind.
  rewrite sample_session_is_initial.
  by rewrite (exit_word_ends_session Sample.rich _
                (Sample.turn "  QuIt " "" false Sample.done_ok) _ Sample.w0
                (L "  QuIt ") eq_refl Hin).
Defined.

(** X9.  No exception at the input prompt changes the session: an
    interrupt or end of input there is read as an empty line and the
    loop goes on; any other error is reported, and the loop goes on when
    rich renders the report (and, with [DEBUG] set, the traceback).  A
    [KeyboardInterrupt] that surfaces while the translator is asked does
    end the session, after the user's line has been added to the
    conversation. *)
Theorem interrupts_at_input_and_at_translator
    (con : console) (s : Main.session) (env : turn_env) (w : world) (e : exn) :
  (pt_prompt env = Raises e →
   (Main.main_step con s env w).1 = w
   ∧ (Main.is_interrupt e = true
      ∨ (renders con (PLoopError (exn_text e)) = true
         ∧ (DEBUG env = true → renders con (PTraceback e) = true)) →
      Main.main_step con s env w = (w, Returns (s, Main.Continue))))
  ∧ (∀ line,
       pt_prompt env = Returns line →
       strip line ≠ [] → lower (strip line) ∉ special_words →
       AIAgent.api_configured (Main.ai_agent s) = true →
       AIAgent.request_outcome con
         (AIAgent.Make true
            (AIAgent.conversation_history (Main.ai_agent s)
               ++ [(AIAgent.User, strip line)]))
         (api env) = Raises e →
       exn_cls e = KeyboardInterrupt →
       Main.main_step con s env w
       = (w, Returns
               (Main.Session
                  (AIAgent.Make true
                     (AIAgent.conversation_history (Main.ai_agent s)
                        ++ [(AIAgent.User, strip line)]))
                  (Main.executor s),
                Main.Break))).
Proof.
  split.
  - intros Hp. unfold Main.main_step, Main.turn_body, Main.get_user_input. rewrite Hp.
    destruct (Main.is_interrupt e) eqn:Hi; simpl.
    { split; [done|]. done. }
    destruct (on_exception_eq con env s e w) as (r & E & _). rewrite E.
    split; [done|]. intros [?|[Hr Hd]]; [done|].
    revert E. unfold Main.on_exception, Main.is_interrupt in *.
    destruct (exn_cls e); try done.
    all: unfold mbind, M_bind, bind, console_print;
      rewrite (say_renders _ _ Hr);
      destruct (DEBUG env); [rewrite (say_renders _ _ (Hd eq_refl))|];
      by intros [= <-].
  - intros line Hp Hne Hsp Hc Hr Hk.
    unfold Main.main_step. rewrite (turn_body_plain con s env w line Hp Hne Hsp).
    unfold AIAgent.chat. rewrite Hc. simpl. rewrite Hr.
    unfold AIAgent.chat_handler, is_Exception. rewrite Hk. simpl.
    unfold Main.on_exception. by rewrite Hk.
Qed.

Lemma interrupts_at_input_and_at_translator_witness :
  (Main.main_step Sample.rich (Main.Session (AIAgent.init true) Sample.ex0)
     (TurnEnv (Raises Sample.end_of_input) (ApiEnv 30 false (Returns (L "ls")))
        (Returns true) (ExecEnv (Returns true) Sample.done_ok) false) Sample.w0).2
  = Returns (Main.Session (AIAgent.init true) Sample.ex0, Main.Continue)
  ∧ (Main.main_step Sample.rich (Main.Session (AIAgent.init true) Sample.ex0)
       (TurnEnv (Returns (L "list files")) (ApiEnv 30 false (Raises Sample.interrupt))
          (Returns true) (ExecEnv (Returns true) Sample.done_ok) false) Sample.w0).2
    = Returns (Main.Session (AIAgent.Make true [(AIAgent.User, L "list files")]) Sample.ex0,
               Main.Break).
Proof.
  split.
  - destruct (interrupts_at_input_and_at_translator Sample.rich
                (Main.Session (AIAgent.init true) Sample.ex0)
                (TurnEnv (Raises Sample.end_of_input) (ApiEnv 30 false (Returns (L "ls")))
                   (Returns true) (ExecEnv (Returns true) Sample.done_ok) false)
                Sample.w0 Sample.end_of_input) as [H _].
    destruct (H eq_refl) as [_ H']. by rewrite (H' (or_introl eq_refl)).
  - destruct (interrupts_at_input_and_at_translator Sample.rich
                (Main.Session (AIAgent.init true) Sample.ex0)
                (TurnEnv (Returns (L "list files")) (ApiEnv 30 false (Raises Sample.interrupt))
                   (Returns true) (ExecEnv (Returns true) Sample.done_ok) false)
                Sample.w0 Sample.interrupt) as [_ H].
    rewrite (H (L "list files")); try done.
    intros Hin. apply list_elem_of_In in Hin. vm_compute in Hin.
    repeat (destruct Hin as [Hin|Hin]; [done|]). done.
Defined.

(** ** Whole sessions *)

(** X10.  A session ends by returning or by a [MarkupError] of the
    last handler's own print, and in it the executor's own red panel and
    its own prompt never appear: every event is a blue panel, the loop's
    prompt, a launch or a listing of the history. *)
Theorem session_never_uses_local_prompt
    (con : console) (configured : bool) (envs : list turn_env) :
  let r := Main.main con configured envs Main.empty_world in
  returns_or_refused con r.2
  ∧ Forall (λ ev, loop_event ev = true) (trace r.1).
Proof.
  simpl. split; [apply main_ends|].
  apply (session_invariant con configured envs
           (λ _ w, Forall (λ ev, loop_event ev = true) (trace w))
           (λ w, Forall (λ ev, loop_event ev = true) (trace w))).
  - constructor.
  - done.
  - intros s env w Hx Hl _ Hi. rewrite <- Hx in Hl.
    pose proof (main_step_trace con s env w Hl) as Ht.
    assert (Forall (λ ev, loop_event ev = true) (trace (Main.main_step con s env w).1)) as H.
    { simpl in Ht. destruct Ht as [->|[->|(new & -> & Hn)]]; [done| |].
      - apply Forall_app. split; [done|]. by repeat constructor.
      - apply Forall_app. split; [done|]. eapply Forall_impl; [exact Hn|].
        intros ev Hev. unfold loop_event. by destruct ev. }
    by destruct (Main.main_step con s env w) as [w' [[s' c]|e]].
Qed.

(** X11.  Every complete listing that the [history] command prints
    during a session is the list of the commands launched up to then, in
    order. *)
Theorem history_listing_is_launched
    (con : console) (configured : bool) (envs : list turn_env) :
  let r := Main.main con configured envs Main.empty_world in
  returns_or_refused con r.2 ∧ listings_faithful (trace r.1).
Proof.
  simpl. split; [apply main_ends|].
  apply (session_invariant con configured envs
           (λ _ w, listings_faithful (trace w))
           (λ w, listings_faithful (trace w))).
  - intros tr1 es tr2 E. by destruct tr1.
  - done.
  - intros s env w Hx Hl Hh Hf. rewrite <- Hx in Hl.
    pose proof (main_step_trace con s env w Hl) as Ht.
    assert (listings_faithful (trace (Main.main_step con s env w).1)) as H.
    { simpl in Ht. destruct Ht as [->|[->|(new & -> & Hn)]]; [done| |].
      - rewrite Hx, Hh. by apply listings_faithful_listing.
      - apply listings_faithful_app; [done|]. by apply launched_dispatch_events. }
    by destruct (Main.main_step con s env w) as [w' [[s' c]|e]].
Qed.

(** X12.  Without an API key the session never launches a command, puts
    no prompt and keeps the command history of its executor empty,
    whatever the user types. *)
Theorem unconfigured_session_runs_nothing (con : console) (envs : list turn_env) :
  let r := Main.main con false envs Main.empty_world in
  returns_or_refused con r.2
  ∧ launched (trace r.1) = []
  ∧ prompts (trace r.1) = []
  ∧ ∃ ex w0,
      CommandExecutor.init Main.empty_world = (w0, Returns ex)
      ∧ deref r.1 (CommandExecutor.command_history ex) = []
      ∧ ∀ s, r.2 = Returns s → Main.executor s = ex.
Proof.
  simpl. split; [apply main_ends|].
  assert (launched (trace (Main.main con false envs Main.empty_world).1) = []
          ∧ prompts (trace (Main.main con false envs Main.empty_world).1) = [])
    as [Hla Hpr].
  { apply (session_invariant con false envs
             (λ s w, AIAgent.api_configured (Main.ai_agent s) = false
                     ∧ launched (trace w) = [] ∧ prompts (trace w) = [])
             (λ w, launched (trace w) = [] ∧ prompts (trace w) = [])).
    - done.
    - by intros s w (_ & ? & ?).
    - intros s env w Hx Hl _ (Hc & Hla & Hpr). rewrite <- Hx in Hl.
      destruct (main_step_cases con s env w Hl) as (w' & r & -> & Hr & Hcases).
      assert (launched (trace w') = [] ∧ prompts (trace w') = []) as Hw'.
      { destruct Hcases as [->|[(wl & _ & Ht & [->| ->])|(line & ai & needs & Hchat & ->)]].
        - done.
        - by rewrite Ht.
        - simpl. by rewrite launched_app, prompts_app, Ht, Hla, Hpr.
        - unfold AIAgent.chat in Hchat. rewrite Hc in Hchat. simpl in Hchat.
          injection Hchat as <- <-. by rewrite handle_response_world. }
      destruct r as [[s' c]|e]; [|done].
      destruct (Hr s' c eq_refl) as [_ Hc']. split; [by rewrite Hc'|done]. }
  split; [done|]. split; [done|].
  exists Sample.ex0, Sample.w0. split; [apply sample_session_is_initial|].
  destruct (session_history_is_launched con false envs) as (_ & Hh & Hs).
  split; [by rewrite Hh | exact Hs].
Qed.

(** X21.  At the end of every session, however it ends, the command
    history of its executor is exactly the list of the commands that were
    handed to the shell, in order: nothing that was denied or merely
    shown is in it, and nothing that was launched is missing. *)
Theorem session_history_equals_launches
    (con : console) (configured : bool) (envs : list turn_env) :
  let r := Main.main con configured envs Main.empty_world in
  returns_or_refused con r.2
  ∧ ∃ ex w0,
      CommandExecutor.init Main.empty_world = (w0, Returns ex)
      ∧ deref r.1 (CommandExecutor.command_history ex) = launched (trace r.1)
      ∧ ∀ s, r.2 = Returns s → Main.executor s = ex.
Proof.
  simpl. split; [apply main_ends|].
  exists Sample.ex0, Sample.w0. split; [apply sample_session_is_initial|].
  destruct (session_history_is_launched con configured envs) as (_ & Hh & Hs).
  by split.
Qed.

(** ** The agent *)

Section AgentFacts.

Import AIAgent.

Lemma not_marked_when_error (t : str) :
  startswith t (L "Error:") = true → check_marker t = (t, false).
Proof.
  intros H. unfold check_marker.
  apply startswith_spec in H as [post ->]. by simpl.
Qed.

Lemma chat_error_text_is_error (n : nat) (e : exn) :
  startswith (chat_error_text n e) (L "Error:") = true.
Proof. unfold chat_error_text. by destruct (exn_cls e). Qed.

Lemma last_n_length {A} (n : nat) (l : list A) : length (Request.last_n n l) = min n (length l).
Proof. unfold Request.last_n. rewrite length_drop. lia. Qed.

Lemma last_drop_lt {A} (n : nat) (l : list A) :
  n < length l → last (drop n l) = last l.
Proof.
  intros H. rewrite <- (take_drop n l) at 2. rewrite last_app.
  destruct (last (drop n l)) eqn:E; [done|].
  apply last_None in E. apply (f_equal length) in E.
  rewrite length_drop in E. simpl in E. lia.
Qed.

End AgentFacts.

(** X13.  What [chat] does to the conversation.  Without an API key it
    is left alone.  With one, the user's line is always added, also when
    the request fails; the assistant's reply is added only when the
    service answered, and what is stored is the command without the
    approval marker, not the raw answer. *)
Theorem chat_conversation_growth
    (con : console) (self : AIAgent.t) (env : api_env) (user_input : str) :
  let after := (AIAgent.chat con self env user_input).1 in
  let asked :=
    AIAgent.Make (AIAgent.api_configured self)
      (AIAgent.conversation_history self ++ [(AIAgent.User, user_input)]) in
  AIAgent.api_configured after = AIAgent.api_configured self
  ∧ AIAgent.conversation_history after
    = AIAgent.conversation_history self
      ++ (if AIAgent.api_configured self
          then (AIAgent.User, user_input)
               :: match AIAgent.request_outcome con asked env with
                  | Returns r => [(AIAgent.Assistant, (AIAgent.check_marker r).1)]
                  | Raises _ => []
                  end
          else []).
Proof.
  simpl. split; [apply chat_keeps_configuration|].
  unfold AIAgent.chat. destruct (AIAgent.api_configured self); simpl.
  - destruct (AIAgent.request_outcome con _ env) as [r|e]; simpl.
    + destruct (AIAgent.check_marker r). simpl. by rewrite <- app_assoc.
    + done.
  - by rewrite app_nil_r.
Qed.

Lemma chat_handler_cases (con : console) (env : api_env) (e : exn) :
  match AIAgent.chat_handler con env e with
  | Raises e1 =>
      if is_Exception e
      then ∃ msg,
             e1 = MarkupError msg
             ∧ (markup_error con (PRed (L "AI service error: " ++ exn_text e)) = Some msg
                ∨ (DEBUG_MODE env = true
                   ∧ markup_error con (PTraceback e) = Some msg))
      else e1 = e
  | Returns (ai_response, needs_approval) =>
      needs_approval = false
      ∧ ai_response = AIAgent.chat_error_text (API_TIMEOUT env) e
  end.
Proof.
  unfold AIAgent.chat_handler, is_Exception.
  destruct (exn_cls e); try done.
  all: unfold mbind, outcome_bind, say;
    destruct (markup_error con (PRed _)) as [msg|] eqn:E1;
      [exists msg; by split; [|left]|];
    destruct (DEBUG_MODE env); [|done];
    destruct (markup_error con (PTraceback e)) as [msg|] eqn:E2; [|done];
    exists msg; split; [done|]; by right.
Qed.

(** X14.  What [chat] gives back.  What it raises is either what the
    request raised outside the [Exception] hierarchy (a
    [KeyboardInterrupt]), or the [MarkupError] of its own last handler,
    when rich refuses the error line or the traceback that the handler
    prints.  Every failure it reports is a text that starts with [Error:]
    together with [needs_approval = False]; the loop launches nothing for
    such a text, and returns when rich renders it. *)
Theorem chat_failures_are_error_texts
    (con : console) (self : AIAgent.t) (env : api_env) (user_input : str)
    (ex : CommandExecutor.t) (tenv : turn_env) (w : world) :
  let asked :=
    AIAgent.Make (AIAgent.api_configured self)
      (AIAgent.conversation_history self ++ [(AIAgent.User, user_input)]) in
  match (AIAgent.chat con self env user_input).2 with
  | Raises e =>
      AIAgent.api_configured self = true
      ∧ ∃ e0, AIAgent.request_outcome con asked env = Raises e0
              ∧ if is_Exception e0
                then ∃ msg,
                       e = MarkupError msg
                       ∧ (markup_error con (PRed (L "AI service error: " ++ exn_text e0))
                          = Some msg
                          ∨ (DEBUG_MODE env = true
                             ∧ markup_error con (PTraceback e0) = Some msg))
                else e = e0
  | Returns (ai_response, needs_approval) =>
      (∃ r, AIAgent.request_outcome con asked env = Returns r
            ∧ AIAgent.api_configured self = true
            ∧ (ai_response, needs_approval) = AIAgent.check_marker r)
      ∨ (needs_approval = false
         ∧ startswith ai_response (L "Error:") = true
         ∧ Main.handle_response con ex tenv ai_response needs_approval w
           = (w, say con (PRed ai_response)))
  end.
Proof.
  assert (∀ t, startswith t (L "Error:") = true →
               Main.handle_response con ex tenv t false w = (w, say con (PRed t))) as Hshow.
  { intros t Ht. unfold Main.handle_response. rewrite Ht.
    apply startswith_spec in Ht as [post ->]. done. }
  cbv zeta. unfold AIAgent.chat.
  destruct (AIAgent.api_configured self); cbn [negb snd].
  - destruct (AIAgent.request_outcome con _ env) as [r|e] eqn:Hreq.
    + destruct (AIAgent.check_marker r) as [ai needs] eqn:E. cbn [snd].
      left. exists r. by rewrite E.
    + cbn [snd]. pose proof (chat_handler_cases con env e) as H.
      destruct (AIAgent.chat_handler con env e) as [[ai needs]|e1].
      * destruct H as [-> ->]. right. split; [done|].
        split; [apply chat_error_text_is_error | apply Hshow, chat_error_text_is_error].
      * split; [done|]. by exists e.
  - right. split; [done|]. split; [done|by apply Hshow].
Qed.


(** X15.  The request that [chat] sends: the system prompt first, then
    at most the last ten messages of the conversation, the last of which
    is the user's present line.  After [clear_history] the request is the
    system prompt and that line alone. *)
Theorem request_window (system_prompt : str) (self : AIAgent.t) (user_input : str) :
  let msgs := Request.messages system_prompt self user_input in
  head msgs = Some (Request.System, system_prompt)
  ∧ last msgs = Some (Request.Of AIAgent.User, user_input)
  ∧ length msgs = 1 + min 10 (length (AIAgent.conversation_history self) + 1)
  ∧ length msgs ≤ 11
  ∧ (∃ older,
       map (λ m, (Request.Of m.1, m.2))
           (AIAgent.conversation_history self ++ [(AIAgent.User, user_input)])
       = older ++ tail msgs)
  ∧ Request.messages system_prompt (AIAgent.clear_history self) user_input
    = [(Request.System, system_prompt); (Request.Of AIAgent.User, user_input)].
Proof.
  simpl. unfold Request.messages.
  set (all := map _ (_ ++ _)).
  assert (length all = length (AIAgent.conversation_history self) + 1) as Hlen.
  { subst all. by rewrite length_map, length_app. }
  split; [done|]. split; [|split; [|split; [|split]]].
  - rewrite last_cons.
    assert (last (Request.last_n 10 all) = Some (Request.Of AIAgent.User, user_input)) as ->;
      [|done].
    unfold Request.last_n. rewrite last_drop_lt by lia.
    subst all. rewrite map_app. simpl. by rewrite last_snoc.
  - simpl. by rewrite last_n_length, Hlen.
  - simpl. rewrite last_n_length. lia.
  - exists (take (length all - 10) all). simpl. unfold Request.last_n.
    by rewrite take_drop.
  - done.
Qed.

(** ** The parsing of the response *)

Section ParseFacts.

Import Parse.

Lemma py_in_obj (key : str) (fields : list (str * json)) :
  py_in key (JObj fields)
  = Ok (match lookup_field key fields with Some _ => true | None => false end).
Proof.
  unfold py_in. destruct (lookup_field key fields) as [v|].
  - by rewrite bool_decide_eq_true_2 by eauto.
  - rewrite bool_decide_eq_false_2; [done|]. by intros [? ?].
Qed.

Lemma has_choices_first (fields : list (str * json)) (first : json) (rest : list json) :
  lookup_field (L "choices") fields = Some (JArr (first :: rest)) →
  has_choices (JObj fields) = Ok true.
Proof.
  intros H. unfold has_choices. rewrite py_in_obj, H. cbn [and_then].
  unfold py_getitem. by rewrite H.
Qed.

Lemma has_choices_absent (fields : list (str * json)) :
  lookup_field (L "choices") fields = None → has_choices (JObj fields) = Ok false.
Proof. intros H. unfold has_choices. by rewrite py_in_obj, H. Qed.

(** A text that starts with [Error:] carries no marker; the loop prints
    it in red and does nothing else. *)
Lemma error_text_shown (con : console) (t : str) (ex : CommandExecutor.t)
    (tenv : turn_env) (w : world) :
  startswith t (L "Error:") = true →
  AIAgent.check_marker t = (t, false)
  ∧ Main.handle_response con ex tenv t false w = (w, say con (PRed t)).
Proof.
  intros Ht. split; [by apply not_marked_when_error|].
  unfold Main.handle_response. rewrite Ht.
  apply startswith_spec in Ht as [post ->]. done.
Qed.

Lemma parse_without_choices (con : console) (rt : runtime) (r : response)
    (fields : list (str * json)) :
  is_http_error r = false →
  json_body r = Decoded (JObj fields) →
  lookup_field (L "choices") fields = None →
  _parse_response con rt r
  = match from_other rt (JObj fields) with
    | Ok content => Returns content
    | Fault f => report con (processing_error_msg (describe rt f))
    end.
Proof.
  intros Hh Hb Hc. unfold _parse_response, extract. rewrite Hh, Hb.
  by rewrite (has_choices_absent fields Hc).
Qed.

(** What a handler of [_parse_response] gives. *)
Lemma report_cases (con : console) (error_msg : str) :
  match report con error_msg with
  | Returns out =>
      renders con (PRed error_msg) = true ∧ out = L "Error: " ++ error_msg
  | Raises e =>
      ∃ msg, markup_error con (PRed error_msg) = Some msg ∧ e = MarkupError msg
  end.
Proof.
  unfold report, say, renders, mbind, outcome_bind.
  destruct (markup_error con (PRed error_msg)) as [msg|]; [by exists msg | done].
Qed.

End ParseFacts.

(** X16.  Whatever goes wrong in [_parse_response] is handled in the
    same way: a status from 400 to 599 (whatever the body is), a body
    that is no JSON, or decoded data on which one of the operations fails
    (for example [null], or a content that is no string).  The handler
    prints the message in red; the status error names the status code and
    the response text.  When rich renders the message, the call returns
    it behind [Error: ]; such a text carries no marker, and the loop
    prints it and launches nothing.  When rich refuses the message, the
    call raises the [MarkupError]. *)
Theorem parse_failures_are_error_texts
    (con : console) (rt : runtime) (r : response)
    (ex : CommandExecutor.t) (tenv : turn_env) (w : world) :
  Parse.is_http_error r = true
  ∨ (∃ t, json_body r = JSONDecodeError t)
  ∨ (∃ t, json_body r = DecodeException t)
  ∨ (∃ data f, json_body r = Decoded data ∧ Parse.extract rt data = Fault f) →
  ∃ error_msg,
    (Parse.is_http_error r = true →
     error_msg = L "API HTTP Error: "
                   ++ L (NilZero.string_of_uint (Nat.to_uint (status_code r)))
                   ++ L " - " ++ text r)
    ∧ match Parse._parse_response con rt r with
      | Returns out =>
          renders con (PRed error_msg) = true
          ∧ out = L "Error: " ++ error_msg
          ∧ startswith out (L "Error:") = true
          ∧ AIAgent.check_marker out = (out, false)
          ∧ Main.handle_response con ex tenv out false w = (w, say con (PRed out))
      | Raises e =>
          ∃ msg, markup_error con (PRed error_msg) = Some msg ∧ e = MarkupError msg
      end.
Proof.
  intros Hfail.
  assert (∃ error_msg,
            Parse._parse_response con rt r = Parse.report con error_msg
            ∧ (Parse.is_http_error r = true → error_msg = Parse.http_error_msg r))
    as (error_msg & -> & Hmsg).
  { unfold Parse._parse_response. destruct (Parse.is_http_error r); [by eexists|].
    destruct Hfail as [?|[(t & ->)|[(t & ->)|(data & f & -> & ->)]]];
      [done| | |]; by eexists. }
  exists error_msg. split; [exact Hmsg|].
  pose proof (report_cases con error_msg) as H.
  destruct (Parse.report con error_msg) as [out|e]; [|done].
  destruct H as [Hr ->]. split; [done|]. split; [done|]. split; [done|].
  by apply error_text_shown.
Qed.

Lemma parse_failures_are_error_texts_witness :
  (Parse._parse_response Sample.rich
     (Runtime (λ _, L "'NoneType' object has no attribute 'strip'") (λ _, []))
     (Response 200 [] (Decoded (JObj [(L "content", JNull)])))
   = Returns (L "Error: API response processing error: 'NoneType' object has no attribute 'strip'"))
  ∧ ∃ msg,
      Parse._parse_response Sample.rich (Runtime (λ _, []) (λ _, []))
        (Response 404 (L "no handler found for uri [/v1/chat/completions]")
           (Decoded (JObj [(L "content", JStr (L "rm -rf /"))])))
      = Raises (MarkupError msg).
Proof.
  split; [by vm_compute|].
  destruct (parse_failures_are_error_texts Sample.rich (Runtime (λ _, []) (λ _, []))
              (Response 404 (L "no handler found for uri [/v1/chat/completions]")
                 (Decoded (JObj [(L "content", JStr (L "rm -rf /"))])))
              Sample.ex0 (Sample.turn "x" "y" false Sample.done_ok) Sample.w0)
    as (error_msg & _ & H); [by left|].
  destruct (Parse._parse_response _ _ _) as [out|e] eqn:E.
  - by vm_compute in E.
  - destruct H as (msg & _ & ->). by exists msg.
Defined.

(** X17.  A response in the OpenAI format (a non-empty list under
    [choices] whose first item is a dict) yields the content of its
    message with the surrounding whitespace removed, whatever else the
    response holds; when the message or its content is missing, it yields
    the empty text. *)
Theorem openai_format_content
    (con : console) (rt : runtime) (r : response)
    (fields first : list (str * json)) (rest : list json) :
  Parse.is_http_error r = false →
  json_body r = Decoded (JObj fields) →
  lookup_field (L "choices") fields = Some (JArr (JObj first :: rest)) →
  let out := Parse._parse_response con rt r in
  (∀ message content,
     lookup_field (L "message") first = Some (JObj message) →
     lookup_field (L "content") message = Some (JStr content) →
     out = Returns (strip content))
  ∧ (lookup_field (L "message") first = None → out = Returns [])
  ∧ (∀ message,
       lookup_field (L "message") first = Some (JObj message) →
       lookup_field (L "content") message = None → out = Returns []).
Proof.
  intros Hh Hb Hc. simpl.
  assert (Parse._parse_response con rt r
          = match Parse.from_choices (JObj fields) with
            | Ok content => Returns content
            | Fault f => Parse.report con (Parse.processing_error_msg (describe rt f))
            end) as ->.
  { unfold Parse._parse_response, Parse.extract. rewrite Hh, Hb.
    by rewrite (has_choices_first fields _ _ Hc). }
  unfold Parse.from_choices, py_getitem. rewrite Hc. simpl.
  split; [|split].
  - intros message content Hm Hct. by rewrite Hm; simpl; rewrite Hct.
  - by intros ->.
  - intros message Hm Hct. by rewrite Hm; simpl; rewrite Hct.
Qed.

Lemma openai_format_content_witness :
  Parse._parse_response Sample.rich (Runtime (λ _, []) (λ _, []))
    (Response 200 []
       (Decoded (JObj [(L "id", JStr (L "x"));
                       (L "choices",
                        JArr [JObj [(L "message",
                                     JObj [(L "role", JStr (L "assistant"));
                                           (L "content", JStr (L "  ls -la  "))])]]);
                       (L "content", JStr (L "pwd"))])))
  = Returns (L "ls -la").
Proof.
  destruct (openai_format_content Sample.rich (Runtime (λ _, []) (λ _, []))
              (Response 200 []
                 (Decoded (JObj [(L "id", JStr (L "x"));
                                 (L "choices",
                                  JArr [JObj [(L "message",
                                               JObj [(L "role", JStr (L "assistant"));
                                                     (L "content", JStr (L "  ls -la  "))])]]);
                                 (L "content", JStr (L "pwd"))])))
              _ _ [] eq_refl eq_refl eq_refl) as (H & _).
  rewrite (H _ (L "  ls -la  ") eq_refl eq_refl). reflexivity.
Defined.

(** X18.  For a dict without a [choices] key the other formats are
    tried in the order [content], [text], [response]; the first of these
    keys that is present decides, and its string comes back stripped.
    When none is present the result is the dump of the whole response. *)
Theorem fallback_formats_in_order
    (con : console) (rt : runtime) (r : response) (fields : list (str * json)) :
  Parse.is_http_error r = false →
  json_body r = Decoded (JObj fields) →
  lookup_field (L "choices") fields = None →
  let out := Parse._parse_response con rt r in
  let content := lookup_field (L "content") fields in
  let txt := lookup_field (L "text") fields in
  let resp := lookup_field (L "response") fields in
  (∀ c, content = Some (JStr c) → out = Returns (strip c))
  ∧ (∀ t, content = None → txt = Some (JStr t) → out = Returns (strip t))
  ∧ (∀ x, content = None → txt = None → resp = Some (JStr x) → out = Returns (strip x))
  ∧ (content = None → txt = None → resp = None → out = Returns (dumps rt (JObj fields))).
Proof.
  intros Hh Hb Hc. simpl.
  rewrite (parse_without_choices con rt r fields Hh Hb Hc).
  unfold Parse.from_other, Parse.field_stripped, py_getitem. rewrite !py_in_obj. simpl.
  split; [|split; [|split]].
  - intros c E. by rewrite E.
  - intros t E1 E2. by rewrite E1; simpl; rewrite E2.
  - intros x E1 E2 E3. by rewrite E1; simpl; rewrite E2; simpl; rewrite E3.
  - intros E1 E2 E3. by rewrite E1; simpl; rewrite E2; simpl; rewrite E3.
Qed.

Lemma fallback_formats_in_order_witness :
  Parse._parse_response Sample.rich (Runtime (λ _, []) (λ _, []))
    (Response 200 []
       (Decoded (JObj [(L "response", JStr (L "pwd")); (L "text", JStr (L " ls "))])))
  = Returns (L "ls").
Proof.
  destruct (fallback_formats_in_order Sample.rich (Runtime (λ _, []) (λ _, []))
              (Response 200 []
                 (Decoded (JObj [(L "response", JStr (L "pwd")); (L "text", JStr (L " ls "))])))
              _ eq_refl eq_refl eq_refl) as (_ & H & _).
  rewrite (H (L " ls ") eq_refl eq_refl). reflexivity.
Defined.

(** X19.  A response in none of the known formats is not refused: the
    dump of the whole response comes back as if it were the command, and
    unless that text happens to carry the marker or to look like an
    answer, the loop puts no prompt for it and launches it as soon as
    rich renders the line of the suggested command and the panel. *)
Theorem unknown_format_dump_is_launched
    (con : console) (rt : runtime) (r : response) (fields : list (str * json))
    (ex : CommandExecutor.t) (tenv : turn_env) (w : world) :
  Parse.is_http_error r = false →
  json_body r = Decoded (JObj fields) →
  lookup_field (L "choices") fields = None →
  lookup_field (L "content") fields = None →
  lookup_field (L "text") fields = None →
  lookup_field (L "response") fields = None →
  let out := dumps rt (JObj fields) in
  startswith out AIAgent.MARKER = false →
  is_answer out = false →
  Parse._parse_response con rt r = Returns out
  ∧ AIAgent.check_marker out = (out, false)
  ∧ launched (trace (Main.handle_response con ex tenv out false w).1)
    = launched (trace w)
      ++ (if renders con (PSuggested out) && renders con (PanelNormal out)
          then [out] else [])
  ∧ prompts (trace (Main.handle_response con ex tenv out false w).1) = prompts (trace w).
Proof.
  intros Hh Hb Hc H1 H2 H3 out Hm Ha.
  split.
  - subst out. rewrite (parse_without_choices con rt r fields Hh Hb Hc).
    unfold Parse.from_other. by rewrite !py_in_obj, H1, H2, H3.
  - split; [unfold AIAgent.check_marker; by rewrite Hm|].
    rewrite handle_response_world, Ha.
    destruct (renders con (PSuggested out)); cbn [andb]; [|by rewrite app_nil_r].
    destruct (dispatch_world con ex tenv out false w) as [-> _].
    rewrite !launched_app, !prompts_app.
    destruct (renders con (PanelNormal out)); simpl; by rewrite !app_nil_r.
Qed.

Lemma unknown_format_dump_is_launched_witness :
  launched
    (trace (Main.handle_response Sample.rich Sample.ex0
              (Sample.turn "x" "y" false Sample.done_ok) (L "{}") false Sample.w0).1)
  = [L "{}"].
Proof.
  destruct (unknown_format_dump_is_launched Sample.rich (Runtime (λ _, []) (λ _, L "{}"))
              (Response 200 [] (Decoded (JObj []))) []
              Sample.ex0 (Sample.turn "x" "y" false Sample.done_ok) Sample.w0
              eq_refl eq_refl eq_refl eq_refl eq_refl eq_refl eq_refl eq_refl)
    as (_ & _ & H & _).
  exact H.
Defined.

(** ** A turn from end to end *)

(** The handlers of the loop, as a value. *)
Lemma on_exception_value (con : console) (env : turn_env) (s : Main.session)
    (e : exn) (w : world) :
  Main.on_exception con env s e w
  = (w, if Main.is_interrupt e then Returns (s, Main.Break)
        else say con (PLoopError (exn_text e));;
             (if DEBUG env then say con (PTraceback e) else Returns tt);;
             Returns (s, Main.Continue)).
Proof.
  unfold Main.on_exception, Main.is_interrupt.
  destruct (exn_cls e); try done.
  all: unfold mbind, M_bind, bind, console_print, outcome_bind;
    destruct (say con (PLoopError _)) as [[]|e1]; [|done];
    destruct (DEBUG env); [|done];
    by destruct (say con (PTraceback e)) as [[]|e2].
Qed.

(** X20.  A line that is no special word goes, stripped, to the
    translator.  When the translator answers, the conversation grows by the
    line and by the command, and the world changes as the handling of the
    answer changes it.  The loop goes on when that handling returns.  When
    it raises, a [KeyboardInterrupt] or [EOFError] ends the loop; any other
    exception is reported, and the loop goes on when rich renders the
    report, and otherwise the [MarkupError] leaves the loop. *)
Theorem plain_line_turn
    (con : console) (s : Main.session) (env : turn_env) (w : world) (line r : str) :
  pt_prompt env = Returns line →
  strip line ≠ [] → lower (strip line) ∉ special_words →
  AIAgent.api_configured (Main.ai_agent s) = true →
  AIAgent.request_outcome con
    (AIAgent.Make true
       (AIAgent.conversation_history (Main.ai_agent s) ++ [(AIAgent.User, strip line)]))
    (api env) = Returns r →
  let ai := (AIAgent.check_marker r).1 in
  let needs := (AIAgent.check_marker r).2 in
  let h := Main.handle_response con (Main.executor s) env ai needs w in
  let s' :=
    Main.Session
      (AIAgent.Make true
         (AIAgent.conversation_history (Main.ai_agent s)
            ++ [(AIAgent.User, strip line); (AIAgent.Assistant, ai)]))
      (Main.executor s) in
  Main.main_step con s env w
  = (h.1,
     match h.2 with
     | Returns _ => Returns (s', Main.Continue)
     | Raises e =>
         if Main.is_interrupt e then Returns (s', Main.Break)
         else say con (PLoopError (exn_text e));;
              (if DEBUG env then say con (PTraceback e) else Returns tt);;
              Returns (s', Main.Continue)
     end).
Proof.
  intros Hp Hne Hsp Hc Hr. cbv zeta.
  unfold Main.main_step. rewrite (turn_body_plain con s env w line Hp Hne Hsp).
  unfold AIAgent.chat. rewrite Hc. cbn [negb AIAgent.api_configured
    AIAgent.conversation_history]. rewrite Hr.
  destruct (AIAgent.check_marker r) as [ai needs]. cbn [fst snd].
  rewrite <- app_assoc. cbn [app]. rewrite attempt_then.
  destruct (Main.handle_response con (Main.executor s) env ai needs w) as [w' [[]|e]];
    cbn [fst snd]; [done|].
  apply on_exception_value.
Qed.

Lemma plain_line_turn_witness :
  Main.main_step Sample.rich (Main.Session (AIAgent.init true) Sample.ex0)
    (Sample.turn " list files " "NEEDS_APPROVAL: ls" true Sample.done_ok) Sample.w0
  = (World {[ 0 := [L "ls"] ]}
       [EvConfirm (Returns true); EvPanel (L "ls") false; EvRun (L "ls") COMMAND_TIMEOUT],
     Returns (Main.Session
                (AIAgent.Make true [(AIAgent.User, L "list files"); (AIAgent.Assistant, L "ls")])
                Sample.ex0,
              Main.Continue)).
Proof.
  rewrite (plain_line_turn Sample.rich _ _ _ (L " list files ") (L "NEEDS_APPROVAL: ls"));
    try reflexivity.
  - by vm_compute.
  - intros Hin. apply list_elem_of_In in Hin. vm_compute in Hin.
    repeat (destruct Hin as [Hin|Hin]; [done|]). done.
Defined.
